(** * Nano-Manana: batch orchestration of page transformations

    A shallow embedding of [src/services/colorize.ts] (the chained,
    reference-based batcher [processColorization]) and of
    [src/services/translate.ts] (the flat batcher [processTranslation]),
    followed by the properties of the batch planner, of the reference
    window, of the completed-index registry and of error propagation.

    [colorize.ts] holds two copies of the colorization module; the one
    embedded here is the first (lines 1-183), which streams completions and
    sorts each batch's completed indices before appending them. *)

From Stdlib Require Import DecimalString.
From stdpp Require Import base list sorting strings.

Open Scope string_scope.
Open Scope list_scope.
Open Scope nat_scope.

(** ** Numbers in template literals

    [`${n}`] for a number that is a natural: its decimal digits. *)
Definition decimal (n : nat) : string :=
  NilZero.string_of_uint (Nat.to_uint n).

Definition decimalN (n : N) : string :=
  NilZero.string_of_uint (N.to_uint n).

(** ** Promises

    An [await]ed promise has settled: it is fulfilled with a value or it is
    rejected with an error, and [await] on a rejected promise throws.  Errors
    are represented by their message. *)

Definition Error := string.

Inductive Settled (A : Type) : Type :=
  | Fulfilled (a : A)
  | Rejected (e : Error).
Arguments Fulfilled {A} a.
Arguments Rejected {A} e.

(** ** Content parts and requests

    Modelled from the spec: the [ContentPart] type and its two constructors
    [createTextPart] and [createImagePart] are declared in [./core], which is
    not part of the sources; section 6 of the specification gives a content
    part as either [{text}] or [{imageBytes, mediaType}]. *)
Inductive ContentPart : Type :=
  | TextPart (text : string)
  | ImagePart (data : string) (mimeType : string).

Definition createTextPart (text : string) : ContentPart := TextPart text.
Definition createImagePart (data mimeType : string) : ContentPart :=
  ImagePart data mimeType.

(** One invocation of [callGeminiImageAPI], with its four arguments. *)
Record ApiRequest : Type := {
  req_apiKey : string;
  req_contents : list ContentPart;
  req_resolution : string;
  req_id : string
}.

(** ** Asynchronous tasks

    The body of an [async] function is a sequence of [await]s.  A task is
    described by the requests it has sent to the remote service and by the
    way its promise settles. *)
Definition Async (A : Type) : Type := (list ApiRequest * Settled A)%type.

Definition sent {A} (t : Async A) : list ApiRequest := t.1.
Definition outcome {A} (t : Async A) : Settled A := t.2.

#[global] Instance Async_ret : MRet Async := λ A a, ([], Fulfilled a).
#[global] Instance Async_bind : MBind Async := λ A B k t,
  match t.2 with
  | Fulfilled a => (t.1 ++ (k a).1, (k a).2)
  | Rejected e => (t.1, Rejected e)
  end.

(** A collaborator that sends nothing to the remote service. *)
Definition local {A} (s : Settled A) : Async A := ([], s).
Definition throw {A} (e : Error) : Async A := ([], Rejected e).

(** ** The imports from [./core]

    [core.ts] is outside the sources: its functions are taken as an
    interface.  [dateNow i] is the reading of [Date.now()] at the moment the
    request identifier of page [i] is built. *)
Class Core : Type := {
  File : Type;
  ImageResult : Type;
  Resolution : Type;
  fileToBase64 : File → Settled string;
  getMimeType : File → string;
  getImageDimensions : File → Settled (nat * nat);
  formatAspectRatioForPrompt : nat → nat → string;
  formatResolution : Resolution → string;
  callGeminiImageAPI :
    string → list ContentPart → string → string →
    Settled (list ImageResult);
  dateNow : nat → N
}.

(** The configuration types and [ProcessedResult] are declared in [./core]
    too; the fields are those the two services read and write. *)
Record ProcessingConfig `{Core} : Type := {
  apiKey : string;
  batchSize : nat;
  resolution : Resolution
}.

Record TranslateConfig `{Core} : Type := {
  processing :> ProcessingConfig;
  fromLanguage : string;
  toLanguage : string
}.

(** [{ ...results[0], index: pageIndex }] *)
Record ProcessedResult `{Core} : Type := {
  image : ImageResult;
  index : nat
}.

(** ** What the caller observes

    The two callbacks are recorded in the order in which they fire.  The
    requests sent to the remote service are recorded batch by batch; within
    a batch they are listed in page order, which is a convention of the
    record: the order in which the requests of one batch reach the service
    depends on when the [await]s of each page return. *)
Inductive Notification `{Core} : Type :=
  | PageProcessing (indices : list nat)
  | PageComplete (result : ProcessedResult).

Record World `{Core} : Type := {
  notifications : list Notification;
  apiCalls : list ApiRequest
}.

Inductive RunResult : Type :=
  | Resolved
  | Failed (e : Error)
  | Running.

Section Services.
Context `{core : Core}.

Definition idle : World := {| notifications := []; apiCalls := [] |}.

Definition onPageProcessing (indices : list nat) (w : World) : World :=
  {| notifications := notifications w ++ [PageProcessing indices];
     apiCalls := apiCalls w |}.

Definition onPageComplete (result : ProcessedResult) (w : World) : World :=
  {| notifications := notifications w ++ [PageComplete result];
     apiCalls := apiCalls w |}.

Definition dispatch (reqs : list ApiRequest) (w : World) : World :=
  {| notifications := notifications w; apiCalls := apiCalls w ++ reqs |}.

(** The call to the remote service: the request is sent, then the promise
    settles as the service decides. *)
Definition callApi (key : string) (contents : list ContentPart)
    (res requestId : string) : Async (list ImageResult) :=
  ([{| req_apiKey := key; req_contents := contents;
       req_resolution := res; req_id := requestId |}],
   callGeminiImageAPI key contents res requestId).

(** [files[pageIndex]]; the indices a run produces are below
    [files.length], so the [undefined] case, given here as a rejection, is
    not exercised by the loops below. *)
Definition fileAt (files : list File) (pageIndex : nat) : Settled File :=
  match files !! pageIndex with
  | Some f => Fulfilled f
  | None => Rejected "TypeError: file is undefined"
  end.

(** [Array.from({ length: n }, (_, i) => start + i)] *)
Definition arrayFrom (n start : nat) : list nat :=
  (λ i, start + i) <$> seq 0 n.

(** *** [Promise.all]

    The tasks of a batch settle one after the other, in the order of the
    instants [settledAt i] at which each page's promise settles.
    [Promise.all] rejects with the first rejection and is fulfilled when
    there is none. *)
Section Scheduling.
Variable settledAt : nat → nat.

Definition settlesBefore (i j : nat) : Prop := settledAt i ≤ settledAt j.

#[global] Instance settlesBefore_dec i j : Decision (settlesBefore i j) :=
  decide (settledAt i ≤ settledAt j).

Definition settleOrder (indices : list nat) : list nat :=
  merge_sort settlesBefore indices.

Fixpoint firstRejection {A} (ps : list (Settled A)) : option Error :=
  match ps with
  | [] => None
  | Rejected e :: _ => Some e
  | Fulfilled _ :: ps => firstRejection ps
  end.

Definition fulfilled {A} (ps : list (Settled A)) : list A :=
  omap (λ p, match p with Fulfilled a => Some a | Rejected _ => None end) ps.

Definition promiseAll {A} (task : nat → Settled A) (indices : list nat)
    : Settled (list A) :=
  match firstRejection (task <$> settleOrder indices) with
  | Some e => Rejected e
  | None => Fulfilled (fulfilled (task <$> indices))
  end.
End Scheduling.

(** The page-index lists announced through [onPageProcessing], in the
    order of the calls. *)
Definition batches (w : World) : list (list nat) :=
  omap (λ n, match n with
             | PageProcessing indices => Some indices
             | PageComplete _ => None
             end) (notifications w).

(** [tiles start bs]: the lists of [bs] are consecutive ranges, the first
    one beginning at [start] and each one beginning where the one before it
    ends. *)
Fixpoint tiles (start : nat) (bs : list (list nat)) : Prop :=
  match bs with
  | [] => True
  | b :: bs => b = seq start (length b) ∧ tiles (start + length b) bs
  end.

(** ** [colorize.ts] *)

Definition getColorizationPrompt (refPageCount : nat) (aspectRatioStr : string)
    : string :=
  let refPages :=
    if decide (0 < refPageCount)
    then "the " +:+ decimal refPageCount +:+
         " reference image(s) attached above"
    else "no reference images" in
  "Colorize the manga page below. Refer to " +:+ refPages +:+
  " to maintain consistency in character eye color, skin color, hair color, and clothing color.

COLORING STYLE REQUIREMENTS:
- Apply vibrant, rich, and diverse colors throughout the entire image.
- Do NOT leave any area uncolored - fill every part with appropriate colors including backgrounds, objects, and small details.
- Use a colorful and visually appealing palette that brings the manga to life.
- Add depth and dimension with shading and highlights where appropriate.
- Make the coloring look professional and polished like a published color manga.

CONSISTENCY REQUIREMENTS:
- Maintain consistency for the same character, but if the character is wearing new clothing, draw them with appropriate different clothing.
- Maintain cosmetic features (eye color, hair color, skin tone) consistently for each character across all pages.
- Maintain consistency in background colors and object colors when they reappear.
- Color different characters with distinct colors, but the same character must be colored consistently.

IMAGE REQUIREMENTS:
- The original image size is " +:+ aspectRatioStr +:+
  ". Make image which has EXACTLY SAME ratio and layout with original one.
- Preserve speech balloons, onomatopoeia, backgrounds, grids, and all structural elements.
- Do not modify or delete any text - keep all text exactly as is.
- Do not change character expressions or gestures - only apply colors.
- Color each panel's scene exactly as shown - do not add different scenes, modify scenes, or remove scenes.

Colorize the following image:".

(** [for (const x of xs) { ... }] with [await]s in its body: the passes run
    one after the other, and a pass that throws ends the loop. *)
Fixpoint forOf {A B} (body : B → A → Async B) (acc : B) (xs : list A)
    : Async B :=
  match xs with
  | [] => mret acc
  | x :: xs => acc ← body acc x; forOf body acc xs
  end.

(** The resolver [getProcessedImageBase64] is supplied by the caller: its
    promise is fulfilled, with the data or with [null], or it is rejected.
    It is taken to give the same answer for the same index throughout a
    run. *)
Definition Resolver : Type := nat → Settled (option string).

(** The body of the loop over [refIndices]: the resolver's promise is
    awaited, and a reference whose data is [null] (or the empty string, which
    is falsy too) is skipped. *)
Definition pushReference (getProcessedImageBase64 : Resolver)
    (contents : list ContentPart) (refIdx : nat) : Async (list ContentPart) :=
  refBase64 ← local (getProcessedImageBase64 refIdx);
  mret (match refBase64 with
        | Some refBase64 =>
            if decide (refBase64 = "") then contents
            else contents ++
              [createTextPart ("This is reference page " +:+
                               decimal (refIdx + 1) +:+
                               " (already colorized):");
               createImagePart refBase64 "image/png"]
        | None => contents
        end).

(** The data with which a reference is attached to a request: what its
    resolver promise is fulfilled with, when that is truthy. *)
Definition referenceData (refBase64 : Settled (option string))
    : option string :=
  match refBase64 with
  | Fulfilled (Some refBase64) =>
      if decide (refBase64 = "") then None else Some refBase64
  | Fulfilled None => None
  | Rejected _ => None
  end.

Definition buildSinglePageRequest (pageIndex : nat) (file : File)
    (refIndices : list nat) (getProcessedImageBase64 : Resolver)
    : Async (list ContentPart) :=
  contents ← forOf (pushReference getProcessedImageBase64) [] refIndices;
  base64 ← local (fileToBase64 file);
  let mimeType := getMimeType file in
  let contents := contents ++
    [createTextPart ("Colorize page " +:+ decimal (pageIndex + 1) +:+ ":");
     createImagePart base64 mimeType] in
  dims ← local (getImageDimensions file);
  let aspectRatioStr := formatAspectRatioForPrompt dims.1 dims.2 in
  mret (contents ++
    [createTextPart
       (getColorizationPrompt (length refIndices) aspectRatioStr)]).

Record LoopState : Type := {
  completedIndices : list nat;
  currentIndex : nat;
  batchNumber : nat
}.

Section Colorization.
Variable files : list File.
Variable config : ProcessingConfig.
Variable getProcessedImageBase64 : Resolver.
Variable settledAt : nat → nat.

Definition totalPages : nat := length files.

(** The request part of the function mapped over [batchIndices]: what
    comes before the test on [results.length]. *)
Definition pageRequest (batchNo : nat) (refIndices : list nat)
    (pageIndex : nat) : Async (nat * list ImageResult) :=
  file ← local (fileAt files pageIndex);
  contents ← buildSinglePageRequest pageIndex file refIndices
               getProcessedImageBase64;
  let requestId :=
    "colorize_batch" +:+ decimal batchNo +:+ "_page" +:+
    decimal (pageIndex + 1) +:+ "_" +:+ decimalN (dateNow pageIndex) in
  results ← callApi (apiKey config) contents
              (formatResolution (resolution config)) requestId;
  mret (pageIndex, results).

(** What a page's task does when its request settles: with a non-empty
    result it notifies the caller and pushes its index; with an empty
    result or a rejection it does neither. *)
Definition settlePage (batchNo : nat) (refIndices : list nat)
    (acc : World * list nat) (pageIndex : nat) : World * list nat :=
  match outcome (pageRequest batchNo refIndices pageIndex) with
  | Fulfilled (_, r :: _) =>
      (onPageComplete {| image := r; index := pageIndex |} acc.1,
       acc.2 ++ [pageIndex])
  | Fulfilled (_, []) => acc
  | Rejected _ => acc
  end.

(** The [ProcessedResult] a page's task hands to [onPageComplete], when
    it does. *)
Definition delivered (batchNo : nat) (refIndices : list nat)
    (pageIndex : nat) : option ProcessedResult :=
  match outcome (pageRequest batchNo refIndices pageIndex) with
  | Fulfilled (_, r :: _) => Some {| image := r; index := pageIndex |}
  | Fulfilled (_, []) => None
  | Rejected _ => None
  end.

Definition targetBatchCount (st : LoopState) : nat :=
  let completedCount := length (completedIndices st) in
  if decide (batchNumber st = 1) then 1
  else batchNumber st `min` (batchSize config `min` completedCount).

Definition batchCount (st : LoopState) : nat :=
  targetBatchCount st `min` (totalPages - currentIndex st).

Definition batchIndices (st : LoopState) : list nat :=
  arrayFrom (batchCount st) (currentIndex st).

Definition refIndices (st : LoopState) : list nat :=
  let completedCount := length (completedIndices st) in
  let refCount := batchSize config `min` completedCount in
  let refStartIndex := 0 `max` (length (completedIndices st) - refCount) in
  drop refStartIndex (completedIndices st).

(** One pass through the body of the [while] loop.  Every task of the
    batch runs to its end whether or not a sibling is rejected (promises
    are not cancelled), so the world holds all their effects; the
    [await Promise.all] throws on the first rejection.
    [sort((a, b) => a - b)] puts the pushed indices in ascending order:
    [merge_sort le]. *)
Definition iteration (st : LoopState) (w : World)
    : World * Settled LoopState :=
  let w := onPageProcessing (batchIndices st) w in
  let task := pageRequest (batchNumber st) (refIndices st) in
  let w := dispatch (batchIndices st ≫= λ i, sent (task i)) w in
  let '(w, batchCompletedIndices) :=
    foldl (settlePage (batchNumber st) (refIndices st)) (w, [])
          (settleOrder settledAt (batchIndices st)) in
  match promiseAll settledAt (λ i, outcome (task i)) (batchIndices st) with
  | Rejected e => (w, Rejected e)
  | Fulfilled _ =>
      (w, Fulfilled
            {| completedIndices :=
                 completedIndices st ++ merge_sort le batchCompletedIndices;
               currentIndex := currentIndex st + batchCount st;
               batchNumber := batchNumber st + 1 |})
  end.

(** The state after a pass that no rejection interrupts, with the pages
    of the batch that delivered a result appended in page order;
    [pass_outcome] below shows that [iteration] computes it. *)
Definition advanced (st : LoopState) : LoopState :=
  {| completedIndices :=
       completedIndices st ++
       filter (λ p, is_Some (delivered (batchNumber st) (refIndices st) p))
              (batchIndices st);
     currentIndex := currentIndex st + batchCount st;
     batchNumber := batchNumber st + 1 |}.

(** The [while] loop, with a bound on the number of passes: [Running]
    is returned with the state reached when the bound is exhausted, and
    the state at which the loop was left is returned with the other two
    results.  [debugLogger.startSession()] only logs and is left out. *)
Fixpoint colorizeLoop (fuel : nat) (st : LoopState) (w : World)
    : World * LoopState * RunResult :=
  if decide (currentIndex st < totalPages) then
    match fuel with
    | 0 => (w, st, Running)
    | S fuel =>
        match iteration st w with
        | (w, Fulfilled st) => colorizeLoop fuel st w
        | (w, Rejected e) => (w, st, Failed e)
        end
    end
  else (w, st, Resolved).

Definition initial : LoopState :=
  {| completedIndices := []; currentIndex := 0; batchNumber := 1 |}.

Definition processColorization (fuel : nat) : World * LoopState * RunResult :=
  colorizeLoop fuel initial idle.

(** The state and the world at the head of the loop after [n] complete
    passes, when the run gets that far: batch [n + 1] is planned from
    it. *)
Fixpoint loopHead (n : nat) : option (LoopState * World) :=
  match n with
  | 0 => Some (initial, idle)
  | S n =>
      match loopHead n with
      | Some (st, w) =>
          if decide (currentIndex st < totalPages) then
            match iteration st w with
            | (w, Fulfilled st) => Some (st, w)
            | (_, Rejected _) => None
            end
          else None
      | None => None
      end
  end.
End Colorization.

(** ** [translate.ts] *)

Definition getTranslationPrompt (fromLanguage toLanguage : string) : string :=
  "Translate this manga page from " +:+ fromLanguage +:+ " to " +:+
  toLanguage +:+
  ". Maintain all other characters, backgrounds, speech balloon's shape, grids and manga structure. Make image which has EXACTLY SAME ratio and layout with original one. You have to translate speech balloon's text, onomatopoeia handwritten text, and all other texts which are not " +:+
  toLanguage +:+ ".".

Definition noImageResult (pageIndex : nat) : Error :=
  "No image result for page " +:+ decimal (pageIndex + 1).

Definition translateSinglePage (file : File) (config : TranslateConfig)
    (pageIndex : nat) : Async ProcessedResult :=
  base64 ← local (fileToBase64 file);
  let mimeType := getMimeType file in
  let prompt :=
    getTranslationPrompt (fromLanguage config) (toLanguage config) in
  let contents := [createTextPart prompt; createImagePart base64 mimeType] in
  let requestId :=
    "translate_page_" +:+ decimal pageIndex +:+ "_" +:+
    decimalN (dateNow pageIndex) in
  results ← callApi (apiKey config) contents
              (formatResolution (resolution config)) requestId;
  match results with
  | [] => throw (noImageResult pageIndex)
  | r :: _ => mret {| image := r; index := pageIndex |}
  end.

Section Translation.
Variable files : list File.
Variable config : TranslateConfig.
Variable settledAt : nat → nat.

Definition translateTask (pageIndex : nat) : Async ProcessedResult :=
  file ← local (fileAt files pageIndex);
  translateSinglePage file config pageIndex.

(** The [.then] callback of a page's promise. *)
Definition thenNotify (w : World) (pageIndex : nat) : World :=
  match outcome (translateTask pageIndex) with
  | Fulfilled result => onPageComplete result w
  | Rejected _ => w
  end.

Definition translateBatch (batchStart : nat) : list nat :=
  let batchEnd := (batchStart + batchSize config) `min` length files in
  arrayFrom (batchEnd - batchStart) batchStart.

(** The body of the [for] loop.  As in the chained service every task of
    the batch runs to its end; the [catch] block logs the error of the
    first rejection and throws it again. *)
Definition translatePass (batchStart : nat) (w : World)
    : World * Settled unit :=
  let batchIndices := translateBatch batchStart in
  let w := onPageProcessing batchIndices w in
  let w := dispatch (batchIndices ≫= λ i, sent (translateTask i)) w in
  let w := foldl thenNotify w (settleOrder settledAt batchIndices) in
  match promiseAll settledAt (λ i, outcome (translateTask i))
          batchIndices with
  | Rejected error => (w, Rejected error)
  | Fulfilled _ => (w, Fulfilled ())
  end.

Fixpoint translateLoop (fuel : nat) (batchStart : nat) (w : World)
    : World * RunResult :=
  if decide (batchStart < length files) then
    match fuel with
    | 0 => (w, Running)
    | S fuel =>
        match translatePass batchStart w with
        | (w, Fulfilled _) =>
            translateLoop fuel (batchStart + batchSize config) w
        | (w, Rejected error) => (w, Failed error)
        end
    end
  else (w, Resolved).

Definition processTranslation (fuel : nat) : World * RunResult :=
  translateLoop fuel 0 idle.
End Translation.
End Services.

(** ** What the caller is told, in more detail *)

Section Observations.
Context `{core : Core}.

(** The results handed to [onPageComplete], in the order of the calls. *)
Definition completions (w : World) : list ProcessedResult :=
  omap (λ n, match n with
             | PageProcessing _ => None
             | PageComplete result => Some result
             end) (notifications w).

(** [barrier current ns]: every completion in [ns] is that of a page of the
    batch announced last before it, [current] being the batch announced
    before [ns] begins. *)
Fixpoint barrier (current : list nat) (ns : list Notification) : Prop :=
  match ns with
  | [] => True
  | PageProcessing indices :: ns => barrier indices ns
  | PageComplete result :: ns => index result ∈ current ∧ barrier current ns
  end.
End Observations.

(** ** The second copy of the colorization module

    Lines 185-335 of [colorize.ts] repeat the module in an earlier form: the
    prompt has no aspect ratio, the builder does not probe the image, and
    the results of a batch are handed to the caller after the whole batch
    has settled, in page order.  The planning of a batch (lines 282-298) is
    that of lines 126-142, word for word: [batchCount], [batchIndices] and
    [refIndices] serve both copies. *)
Module Earlier.
Section Services.
Context `{core : Core}.

Definition getColorizationPrompt (refPageCount : nat) : string :=
  let refPages :=
    if decide (0 < refPageCount)
    then "the " +:+ decimal refPageCount +:+
         " reference image(s) attached above"
    else "no reference images" in
  "Colorize the manga page below. Refer to " +:+ refPages +:+
  " to maintain consistency in character eye color, skin color, hair color, and clothing color. Make image which has EXACTLY SAME ratio and layout with original one. Maintain consistency for the same character, but if the character is wearing new clothing in the image below, draw them with appropriate different clothing. Color different characters with distinct colors, but the same character must be colored consistently. Preserve speech balloons, onomatopoeia, backgrounds, grids, and all structural elements. Do not modify or delete any text - keep all text exactly as is. Do not change character expressions or gestures - only apply colors. Color each panel's scene exactly as shown - do not add different scenes, modify scenes, or remove scenes. Colorize the following image:".

Definition buildSinglePageRequest (pageIndex : nat) (file : File)
    (refIndices : list nat) (getProcessedImageBase64 : Resolver)
    : Async (list ContentPart) :=
  contents ← forOf (pushReference getProcessedImageBase64) [] refIndices;
  base64 ← local (fileToBase64 file);
  let mimeType := getMimeType file in
  let contents := contents ++
    [createTextPart ("Colorize page " +:+ decimal (pageIndex + 1) +:+ ":");
     createImagePart base64 mimeType] in
  mret (contents ++
    [createTextPart (getColorizationPrompt (length refIndices))]).

Section Colorization.
Variable files : list File.
Variable config : ProcessingConfig.
Variable getProcessedImageBase64 : Resolver.
Variable settledAt : nat → nat.

(** The function mapped over [batchIndices]: it only returns the page index
    with the results. *)
Definition pageRequest (batchNo : nat) (refIndices : list nat)
    (pageIndex : nat) : Async (nat * list ImageResult) :=
  file ← local (fileAt files pageIndex);
  contents ← buildSinglePageRequest pageIndex file refIndices
               getProcessedImageBase64;
  let requestId :=
    "colorize_batch" +:+ decimal batchNo +:+ "_page" +:+
    decimal (pageIndex + 1) +:+ "_" +:+ decimalN (dateNow pageIndex) in
  results ← callApi (apiKey config) contents
              (formatResolution (resolution config)) requestId;
  mret (pageIndex, results).

(** The body of the loop over [batchResults]. *)
Definition collect (acc : World * list nat)
    (entry : nat * list ImageResult) : World * list nat :=
  let '(pageIndex, results) := entry in
  match results with
  | r :: _ =>
      (onPageComplete {| image := r; index := pageIndex |} acc.1,
       acc.2 ++ [pageIndex])
  | [] => acc
  end.

(** One pass through the body of the [while] loop: [Promise.all] gives the
    results in the order of [batchIndices], and throws before any of them is
    looked at when a request is rejected. *)
Definition iteration (st : LoopState) (w : World)
    : World * Settled LoopState :=
  let batchIndices := batchIndices files config st in
  let w := onPageProcessing batchIndices w in
  let refIndices := refIndices config st in
  let task := pageRequest (batchNumber st) refIndices in
  let w := dispatch (batchIndices ≫= λ i, sent (task i)) w in
  match promiseAll settledAt (λ i, outcome (task i)) batchIndices with
  | Rejected e => (w, Rejected e)
  | Fulfilled batchResults =>
      let '(w, completedIndices) :=
        foldl collect (w, completedIndices st) batchResults in
      (w, Fulfilled
            {| completedIndices := completedIndices;
               currentIndex := currentIndex st + batchCount files config st;
               batchNumber := batchNumber st + 1 |})
  end.

Fixpoint colorizeLoop (fuel : nat) (st : LoopState) (w : World)
    : World * LoopState * RunResult :=
  if decide (currentIndex st < totalPages files) then
    match fuel with
    | 0 => (w, st, Running)
    | S fuel =>
        match iteration st w with
        | (w, Fulfilled st) => colorizeLoop fuel st w
        | (w, Rejected e) => (w, st, Failed e)
        end
    end
  else (w, st, Resolved).

Definition processColorization (fuel : nat) : World * LoopState * RunResult :=
  colorizeLoop fuel initial idle.
End Colorization.
End Services.
End Earlier.

(** ** The batch planner of the specification

    Section 4.1 of the specification in its own words: one page for the
    first batch, otherwise the least of the batch ordinal, the configured
    width and the number of completed pages; then never more than the pages
    that remain.  The page indices are the range of that length starting at
    the cursor. *)
Definition plannedBatchCount
    (totalPages maxWidth completedCount batchOrdinal nextUnprocessedIndex : nat)
    : nat :=
  let batchCount :=
    if decide (batchOrdinal = 1) then 1
    else (batchOrdinal `min` maxWidth) `min` completedCount in
  batchCount `min` (totalPages - nextUnprocessedIndex).

Definition plannedPageIndices
    (totalPages maxWidth completedCount batchOrdinal nextUnprocessedIndex : nat)
    : list nat :=
  seq nextUnprocessedIndex
    (plannedBatchCount totalPages maxWidth completedCount batchOrdinal
       nextUnprocessedIndex).

(** ** A studio to run the services in

    A concrete [./core]: a file is the text of its image; the file
    ["corrupt"] cannot be decoded, the remote service answers the page
    ["blank"] with an empty result and the page ["fault"] with an error, and
    colours every other page. *)
Module Studio.
Definition imageData (part : ContentPart) : option string :=
  match part with
  | ImagePart data _ => Some data
  | TextPart _ => None
  end.

(** The image a request is about: the last one of its parts. *)
Definition targetImage (contents : list ContentPart) : string :=
  default "" (last (omap imageData contents)).

#[export] Instance studio : Core := {|
  File := string;
  ImageResult := string;
  Resolution := string;
  fileToBase64 f :=
    if decide (f = "corrupt") then Rejected "cannot decode file"
    else Fulfilled f;
  getMimeType _ := "image/jpeg";
  getImageDimensions _ := Fulfilled (800, 1200);
  formatAspectRatioForPrompt w h := decimal w +:+ ":" +:+ decimal h;
  formatResolution r := r;
  callGeminiImageAPI _ contents _ _ :=
    let d := targetImage contents in
    if decide (d = "blank") then Fulfilled []
    else if decide (d = "fault") then Rejected "503 service unavailable"
    else Fulfilled ["colored " +:+ d];
  dateNow _ := 1700000000000%N
|}.

Definition book (pages : list string) : list File := pages.

Definition pages (n : nat) : list File :=
  (λ i, "page" +:+ decimal i) <$> seq 0 n.

Definition cfg (width : nat) : ProcessingConfig :=
  {| apiKey := "key"; batchSize := width; resolution := "2K" |}.

Definition tcfg (width : nat) : TranslateConfig :=
  {| processing := cfg width;
     fromLanguage := "Japanese"; toLanguage := "English" |}.

Definition resolver : Resolver :=
  λ i, Fulfilled (Some ("colored page" +:+ decimal i)).

(** Within a batch the later pages settle first. *)
Definition backwards (i : nat) : nat := 16 - i.
End Studio.

(** * Properties *)

(** ** Promises and scheduling *)

Section PromiseFacts.
Context {A : Type}.
Implicit Types (ps : list (Settled A)) (e : Error).

Lemma firstRejection_Some ps e :
  firstRejection ps = Some e → Rejected e ∈ ps.
Proof.
  induction ps as [|[a|e'] ps IH]; simpl; intros Hfr.
  - discriminate.
  - right. auto.
  - injection Hfr as ->. left.
Qed.

Lemma firstRejection_None ps :
  firstRejection ps = None ↔ Forall (λ p, ∃ a, p = Fulfilled a) ps.
Proof.
  induction ps as [|[a|e'] ps IH]; simpl.
  - split; auto.
  - rewrite IH. split.
    + intros Hall. constructor; eauto.
    + intros Hall. by inversion Hall.
  - split; [discriminate|].
    intros Hall. inversion Hall as [|? ? [a Ha] _]. discriminate.
Qed.

Lemma firstRejection_is_Some ps e :
  Rejected e ∈ ps → is_Some (firstRejection ps).
Proof.
  intros Hin. destruct (firstRejection ps) eqn:Hfr; [eauto|].
  apply firstRejection_None in Hfr. rewrite Forall_forall in Hfr.
  destruct (Hfr _ Hin) as [a Ha]. discriminate.
Qed.
End PromiseFacts.

Section SchedulingFacts.
Variable settledAt : nat → nat.

Lemma settleOrder_perm (l : list nat) : settleOrder settledAt l ≡ₚ l.
Proof. apply merge_sort_Permutation. Qed.

Lemma settleOrder_nil : settleOrder settledAt [] = [].
Proof. reflexivity. Qed.

Lemma elem_of_settleOrder (l : list nat) i :
  i ∈ settleOrder settledAt l ↔ i ∈ l.
Proof. by rewrite settleOrder_perm. Qed.

(** [Promise.all] is fulfilled exactly when every task of the batch is. *)
Lemma promiseAll_fulfilled {A} (task : nat → Settled A) (l : list nat) :
  (∀ i, i ∈ l → ∃ a, task i = Fulfilled a) →
  promiseAll settledAt task l = Fulfilled (fulfilled (task <$> l)).
Proof.
  intros Hall. unfold promiseAll.
  destruct (firstRejection _) as [e|] eqn:Hfr; [|done].
  apply firstRejection_Some, list_elem_of_fmap in Hfr as (i & Hi & Hin).
  apply elem_of_settleOrder, Hall in Hin as [a Ha]. congruence.
Qed.

(** It is rejected as soon as one is, with the error of a task of the
    batch: the first to be rejected. *)
Lemma promiseAll_rejected {A} (task : nat → Settled A) (l : list nat) i e :
  i ∈ l → task i = Rejected e →
  ∃ e', promiseAll settledAt task l = Rejected e' ∧
        firstRejection (task <$> settleOrder settledAt l) = Some e' ∧
        ∃ j, j ∈ l ∧ task j = Rejected e'.
Proof.
  intros Hin Hrej. unfold promiseAll.
  assert (Rejected e ∈ task <$> settleOrder settledAt l) as Hmem.
  { apply list_elem_of_fmap. exists i. by rewrite elem_of_settleOrder. }
  destruct (firstRejection_is_Some _ _ Hmem) as [e' He'].
  rewrite He'. exists e'. split_and!; [done..|].
  apply firstRejection_Some, list_elem_of_fmap in He' as (j & Hj & Hjin).
  exists j. by rewrite <- elem_of_settleOrder.
Qed.

Lemma promiseAll_inv_fulfilled {A} (task : nat → Settled A) (l : list nat)
    vs :
  promiseAll settledAt task l = Fulfilled vs →
  ∀ i, i ∈ l → ∃ a, task i = Fulfilled a.
Proof.
  unfold promiseAll. intros Hall i Hin.
  destruct (firstRejection _) eqn:Hfr; [discriminate|].
  apply firstRejection_None in Hfr. rewrite Forall_forall in Hfr.
  apply Hfr, list_elem_of_fmap. exists i. by rewrite elem_of_settleOrder.
Qed.

Lemma promiseAll_inv_rejected {A} (task : nat → Settled A) (l : list nat) e :
  promiseAll settledAt task l = Rejected e →
  firstRejection (task <$> settleOrder settledAt l) = Some e ∧
  ∃ j, j ∈ l ∧ task j = Rejected e.
Proof.
  unfold promiseAll. intros Hall.
  destruct (firstRejection _) as [e'|] eqn:Hfr; [|discriminate].
  injection Hall as ->. split; [done|].
  apply firstRejection_Some, list_elem_of_fmap in Hfr as (j & Hj & Hjin).
  exists j. by rewrite <- elem_of_settleOrder.
Qed.
End SchedulingFacts.

(** ** Ranges and tilings *)

Lemma arrayFrom_seq n start : arrayFrom n start = seq start n.
Proof.
  unfold arrayFrom. transitivity (seq (start + 0) n).
  - apply (fmap_add_seq start 0 n).
  - f_equal. lia.
Qed.

Lemma seq_lt_sorted start n : StronglySorted lt (seq start n).
Proof.
  revert start. induction n as [|n IH]; intros start; simpl; constructor.
  - apply IH.
  - apply Forall_forall. intros x Hx%elem_of_seq. lia.
Qed.

Lemma StronglySorted_filter {A} (R : relation A) (P : A → Prop)
    `{∀ x, Decision (P x)} (l : list A) :
  StronglySorted R l → StronglySorted R (filter P l).
Proof.
  induction 1 as [|x l Hl IH Hx]; [constructor|].
  rewrite filter_cons. destruct (decide (P x)); [|done].
  constructor; [done|]. rewrite Forall_forall in Hx |- *.
  intros y [_ Hy]%list_elem_of_filter. auto.
Qed.

Lemma lt_sorted_le_sorted (l : list nat) : StronglySorted lt l → Sorted le l.
Proof.
  intros Hl. apply StronglySorted_Sorted.
  induction Hl as [|x l Hl IH Hx]; constructor; [done|].
  eapply Forall_impl; [exact Hx|]. simpl. lia.
Qed.

(** Sorting what is left of a range after any reordering and any selection
    gives back the selected part of the range, in page order. *)
Lemma sort_settled_range (settledAt : nat → nat) (P : nat → Prop)
    `{∀ x, Decision (P x)} start n :
  merge_sort le (filter P (settleOrder settledAt (seq start n)))
  = filter P (seq start n).
Proof.
  apply (Sorted_unique le).
  - apply Sorted_merge_sort; apply _.
  - apply lt_sorted_le_sorted, StronglySorted_filter, seq_lt_sorted.
  - rewrite merge_sort_Permutation. by rewrite settleOrder_perm.
Qed.

Section Tilings.
Context `{core : Core}.

Lemma tiles_concat start bs :
  tiles start bs → concat bs = seq start (length (concat bs)).
Proof.
  revert start. induction bs as [|b bs IH]; intros start; simpl; [done|].
  intros [Hb Hbs]. rewrite length_app, seq_app, <- Hb.
  f_equal. by apply IH.
Qed.

Lemma tiles_snoc start bs n :
  tiles start bs →
  tiles start (bs ++ [seq (start + length (concat bs)) n]).
Proof.
  revert start. induction bs as [|b bs IH]; intros start; simpl.
  - intros _. rewrite Nat.add_0_r, length_seq. done.
  - intros [Hb Hbs]. split; [done|].
    rewrite length_app, Nat.add_assoc. by apply IH.
Qed.

Lemma batches_onPageProcessing indices w :
  batches (onPageProcessing indices w) = batches w ++ [indices].
Proof. unfold batches. simpl. by rewrite omap_app. Qed.

Lemma batches_onPageComplete result w :
  batches (onPageComplete result w) = batches w.
Proof. unfold batches. simpl. by rewrite omap_app, app_nil_r. Qed.

Lemma batches_dispatch reqs w : batches (dispatch reqs w) = batches w.
Proof. done. Qed.
End Tilings.

(** ** Tasks *)

Lemma referenceData_Some (s : Settled (option string)) (refBase64 : string) :
  referenceData s = Some refBase64 ↔
  s = Fulfilled (Some refBase64) ∧ refBase64 ≠ "".
Proof.
  destruct s as [[d|]|e]; simpl; [|split; [done|by intros [? _]]..].
  destruct (decide (d = "")) as [->|Hd].
  - split; [done|]. intros [[= <-] Hne]. done.
  - split; [by intros [= <-]|]. by intros [[= <-] _].
Qed.

Lemma length_bind_pairs {A B} (f : A → list B) (l : list A) :
  (∀ a, length (f a) = 2) → length (l ≫= f) = 2 * length l.
Proof.
  intros Hf. induction l as [|a l IH]; [done|].
  rewrite bind_cons, length_app, Hf, IH. simpl. lia.
Qed.

(** The loop over [refIndices] sends nothing.  It is rejected with the
    first rejection of the resolver, in the order of the list; otherwise the
    references whose data is truthy are attached in that order, a label and
    an image each, and the others leave no trace. *)
Lemma references_awaited (getProcessedImageBase64 : Resolver)
    (refIndices : list nat) (contents : list ContentPart) :
  forOf (pushReference getProcessedImageBase64) contents refIndices =
  local
    match firstRejection (getProcessedImageBase64 <$> refIndices) with
    | Some e => Rejected e
    | None =>
        Fulfilled
          (contents ++
           (filter (λ refIdx,
                      is_Some (referenceData (getProcessedImageBase64 refIdx)))
                   refIndices
            ≫= λ refIdx,
                 [createTextPart ("This is reference page " +:+
                                  decimal (refIdx + 1) +:+
                                  " (already colorized):");
                  createImagePart
                    (default ""
                       (referenceData (getProcessedImageBase64 refIdx)))
                    "image/png"]))
    end.
Proof.
  revert contents. induction refIndices as [|refIdx rest IH]; intros contents.
  - simpl. by rewrite app_nil_r.
  - assert (∀ a, pushReference getProcessedImageBase64 contents refIdx
                 = ([], a) →
              forOf (pushReference getProcessedImageBase64) contents
                (refIdx :: rest)
              = match a with
                | Fulfilled contents =>
                    forOf (pushReference getProcessedImageBase64) contents rest
                | Rejected e => ([], Rejected e)
                end) as Hstep.
    { intros a Ha. cbn [forOf]. unfold mbind, Async_bind. rewrite Ha.
      destruct a; [|done]. simpl. by destruct (forOf _ _ _). }
    cbn [fmap list_fmap firstRejection]. rewrite filter_cons.
    destruct (getProcessedImageBase64 refIdx) as [[refBase64|]|e] eqn:Href;
      (erewrite Hstep;
         [|unfold pushReference, mbind, Async_bind, local, mret, Async_ret;
           rewrite Href; reflexivity]);
      cbn [fst snd referenceData firstRejection].
    + rewrite IH. unfold local. cbn [fst snd app].
      destruct (firstRejection _); [done|].
      destruct (decide (refBase64 = "")) as [->|Hdata].
      * rewrite decide_False; [done|]. by intros [? ?].
      * rewrite decide_True by eauto.
        rewrite bind_cons, Href. simpl.
        rewrite decide_False by done. simpl. by rewrite <- app_assoc.
    + rewrite IH. unfold local. cbn [fst snd app].
      destruct (firstRejection _); [done|].
      rewrite decide_False; [done|]. by intros [? ?].
    + done.
Qed.

(** Unfolds the [await]s of a task and splits on the way each awaited
    promise settles. *)
Ltac awaits :=
  rewrite ?references_awaited in *;
  unfold outcome, sent, mbind, Async_bind, mret, Async_ret, local, throw,
    callApi in *;
  simpl in *;
  repeat match goal with
    | |- context [match firstRejection ?l with Some _ => _ | None => _ end] =>
        destruct (firstRejection l) eqn:?; simpl in *
    | H : context [match firstRejection ?l with Some _ => _ | None => _ end]
      |- _ =>
        destruct (firstRejection l) eqn:?; simpl in *
    | |- context [match ?s with Fulfilled _ => _ | Rejected _ => _ end] =>
        destruct s eqn:?; simpl in *
    | H : context [match ?s with Fulfilled _ => _ | Rejected _ => _ end]
      |- _ =>
        destruct s eqn:?; simpl in *
    end.

Section ColorizationFacts.
Context `{core : Core}.
Variable files : list File.
Variable config : ProcessingConfig.
Variable getProcessedImageBase64 : Resolver.
Variable settledAt : nat → nat.

Local Abbreviation request :=
  (pageRequest files config getProcessedImageBase64).
Local Abbreviation handed :=
  (delivered files config getProcessedImageBase64).
Local Abbreviation settle :=
  (settlePage files config getProcessedImageBase64).
Local Abbreviation pass :=
  (iteration files config getProcessedImageBase64 settledAt).
Local Abbreviation loop :=
  (colorizeLoop files config getProcessedImageBase64 settledAt).
Local Abbreviation run :=
  (processColorization files config getProcessedImageBase64 settledAt).
Local Abbreviation head :=
  (loopHead files config getProcessedImageBase64 settledAt).
Local Abbreviation total := (totalPages files).
Local Abbreviation pages := (batchIndices files config).
Local Abbreviation count := (batchCount files config).
Local Abbreviation refs := (refIndices config).
Local Abbreviation next :=
  (advanced files config getProcessedImageBase64).

Lemma pageRequest_index batchNo refs p q rs :
  outcome (request batchNo refs p) = Fulfilled (q, rs) → q = p.
Proof. unfold pageRequest. awaits; congruence. Qed.

Lemma delivered_index batchNo refs p result :
  handed batchNo refs p = Some result → index result = p.
Proof.
  unfold delivered. intros Hd.
  by destruct (outcome _) as [[q [|r rs]]|e]; simplify_eq.
Qed.

(** A delivered result answers a request that was sent for the page and to
    which the remote service gave at least one image. *)
Lemma delivered_answer batchNo refs p result :
  handed batchNo refs p = Some result →
  ∃ req rs,
    sent (request batchNo refs p) = [req] ∧
    createTextPart ("Colorize page " +:+ decimal (p + 1) +:+ ":")
      ∈ req_contents req ∧
    callGeminiImageAPI (req_apiKey req) (req_contents req)
      (req_resolution req) (req_id req) = Fulfilled (image result :: rs).
Proof.
  unfold delivered. intros Hd.
  destruct (outcome _) as [[q [|r rs]]|e] eqn:Hout; simplify_eq.
  revert Hout. unfold pageRequest, buildSinglePageRequest.
  awaits; intros; simplify_eq.
  eexists _, rs. split_and!; [reflexivity| |eassumption].
  simpl. rewrite !elem_of_app, !elem_of_cons. auto.
Qed.

Lemma delivered_None_empty batchNo refs p :
  outcome (request batchNo refs p) = Fulfilled (p, []) →
  handed batchNo refs p = None.
Proof. unfold delivered. by intros ->. Qed.

Lemma delivered_None_rejected batchNo refs p e :
  outcome (request batchNo refs p) = Rejected e →
  handed batchNo refs p = None.
Proof. unfold delivered. by intros ->. Qed.

Lemma settlePage_delivered batchNo refs w acc p :
  settle batchNo refs (w, acc) p =
  match handed batchNo refs p with
  | Some result => (onPageComplete result w, acc ++ [index result])
  | None => (w, acc)
  end.
Proof.
  unfold settlePage, delivered.
  by destruct (outcome _) as [[q [|r rs]]|e].
Qed.

(** The effect of a batch's settlements, whatever their order: the
    delivered results are notified one by one and their indices pushed. *)
Lemma foldl_settle batchNo refs order w acc :
  foldl (settle batchNo refs) (w, acc) order =
  ({| notifications :=
        notifications w ++ (PageComplete <$> omap (handed batchNo refs) order);
      apiCalls := apiCalls w |},
   acc ++ filter (λ p, is_Some (handed batchNo refs p)) order).
Proof.
  revert w acc. induction order as [|p order IH]; intros w acc.
  - simpl. rewrite !app_nil_r. by destruct w.
  - cbn [foldl]. rewrite settlePage_delivered, filter_cons. simpl.
    destruct (handed batchNo refs p) as [result|] eqn:Hd.
    + rewrite IH. rewrite decide_True by eauto. simpl.
      rewrite (delivered_index _ _ _ _ Hd).
      by rewrite <- !app_assoc.
    + rewrite IH. rewrite decide_False by (by intros [? ?]). done.
Qed.

Lemma pages_seq st : pages st = seq (currentIndex st) (count st).
Proof. apply arrayFrom_seq. Qed.

(** *** One pass of the loop *)

Lemma pass_world st w :
  (pass st w).1 =
  {| notifications :=
       notifications w ++
       PageProcessing (pages st) ::
       (PageComplete <$> omap (handed (batchNumber st) (refs st))
                           (settleOrder settledAt (pages st)));
     apiCalls :=
       apiCalls w ++
       (pages st ≫= λ i, sent (request (batchNumber st) (refs st) i)) |}.
Proof.
  unfold iteration. rewrite foldl_settle. simpl.
  destruct (promiseAll _ _ _); simpl; by rewrite <- app_assoc.
Qed.

Lemma pass_outcome st w :
  (pass st w).2 =
  match promiseAll settledAt
          (λ i, outcome (request (batchNumber st) (refs st) i)) (pages st) with
  | Rejected e => Rejected e
  | Fulfilled _ => Fulfilled (next st)
  end.
Proof.
  unfold iteration. rewrite foldl_settle. simpl.
  destruct (promiseAll _ _ _); simpl; [|done].
  unfold advanced. do 3 f_equal.
  rewrite pages_seq. apply sort_settled_range.
Qed.

Lemma batches_pass st w : batches (pass st w).1 = batches w ++ [pages st].
Proof.
  rewrite pass_world. unfold batches. simpl.
  rewrite omap_app. simpl. f_equal. f_equal.
  induction (omap _ _) as [|r l IH]; simpl; auto.
Qed.

Lemma pass_fulfilled st w :
  (∀ i, i ∈ pages st →
     ∃ v, outcome (request (batchNumber st) (refs st) i) = Fulfilled v) →
  pass st w = ((pass st w).1, Fulfilled (next st)).
Proof.
  intros Hall. rewrite (surjective_pairing (pass st w)) at 1.
  rewrite pass_outcome.
  by rewrite (promiseAll_fulfilled _ _ _ Hall).
Qed.

Lemma pass_rejected st w i e :
  i ∈ pages st →
  outcome (request (batchNumber st) (refs st) i) = Rejected e →
  ∃ e', pass st w = ((pass st w).1, Rejected e') ∧
        firstRejection
          ((λ i, outcome (request (batchNumber st) (refs st) i))
             <$> settleOrder settledAt (pages st)) = Some e' ∧
        ∃ j, j ∈ pages st ∧
             outcome (request (batchNumber st) (refs st) j) = Rejected e'.
Proof.
  intros Hin Hrej.
  destruct (promiseAll_rejected settledAt
              (λ i, outcome (request (batchNumber st) (refs st) i))
              (pages st) i e Hin Hrej) as (e' & Hall & Hfirst & Hj).
  exists e'. split_and!; [|done..].
  rewrite (surjective_pairing (pass st w)) at 1.
  by rewrite pass_outcome, Hall.
Qed.

(** *** The loop and its heads *)

Lemma head_step n st' w' :
  head (S n) = Some (st', w') →
  ∃ st w, head n = Some (st, w) ∧ currentIndex st < total ∧
          pass st w = (w', Fulfilled st') ∧ st' = next st ∧
          ∀ i, i ∈ pages st →
            ∃ v, outcome (request (batchNumber st) (refs st) i) = Fulfilled v.
Proof.
  simpl. destruct (head n) as [[st w]|]; [|discriminate].
  destruct (decide _) as [Hlt|]; [|discriminate].
  destruct (pass st w) as [w1 [st1|e]] eqn:Hpass; [|discriminate].
  intros [= -> ->]. exists st, w. split_and!; [done..| |].
  - pose proof (pass_outcome st w) as Hout. rewrite Hpass in Hout.
    simpl in Hout. destruct (promiseAll _ _ _); congruence.
  - pose proof (pass_outcome st w) as Hout. rewrite Hpass in Hout.
    simpl in Hout.
    destruct (promiseAll _ _ _) as [vs|] eqn:Hall; [|discriminate].
    by eapply promiseAll_inv_fulfilled.
Qed.

Lemma head_next n st w :
  head n = Some (st, w) → currentIndex st < total →
  (∀ i, i ∈ pages st →
     ∃ v, outcome (request (batchNumber st) (refs st) i) = Fulfilled v) →
  head (S n) = Some (next st, (pass st w).1).
Proof.
  intros Hn Hlt Hall. simpl. rewrite Hn, decide_True by done.
  by rewrite (pass_fulfilled st w Hall).
Qed.

Lemma run_from_head n fuel st w :
  head n = Some (st, w) → run (n + fuel) = loop fuel st w.
Proof.
  revert fuel st w. induction n as [|n IH]; intros fuel st' w' Hn.
  - by injection Hn as <- <-.
  - apply head_step in Hn as (st & w & Hn & Hlt & Hpass & _).
    replace (S n + fuel) with (n + S fuel) by lia.
    rewrite (IH _ _ _ Hn). simpl.
    by rewrite decide_True, Hpass by done.
Qed.

(** How a run of at most [fuel] passes ends: it leaves the loop at a head
    where the cursor has reached the number of pages, or it is still inside
    the loop after [fuel] passes, or a pass is interrupted by a
    rejection. *)
Lemma run_ends fuel :
  ∃ n st w, n ≤ fuel ∧ head n = Some (st, w) ∧
    ((¬ currentIndex st < total ∧ run fuel = (w, st, Resolved)) ∨
     (currentIndex st < total ∧ n = fuel ∧ run fuel = (w, st, Running)) ∨
     (currentIndex st < total ∧
      ∃ e, pass st w = ((pass st w).1, Rejected e) ∧
           run fuel = ((pass st w).1, st, Failed e))).
Proof.
  assert (∀ fuel n st w, head n = Some (st, w) →
    ∃ m st' w', m ≤ n + fuel ∧ head m = Some (st', w') ∧
      ((¬ currentIndex st' < total ∧ loop fuel st w = (w', st', Resolved)) ∨
       (currentIndex st' < total ∧ m = n + fuel ∧
        loop fuel st w = (w', st', Running)) ∨
       (currentIndex st' < total ∧
        ∃ e, pass st' w' = ((pass st' w').1, Rejected e) ∧
             loop fuel st w = ((pass st' w').1, st', Failed e)))) as Hgen.
  { clear fuel. induction fuel as [|fuel IH]; intros n st w Hn.
    - exists n, st, w. split_and!; [lia|done|]. simpl.
      destruct (decide _); [right; left|left]; split_and!; auto with lia.
    - simpl. destruct (decide (currentIndex st < total)) as [Hlt|Hge].
      + destruct (pass st w) as [w1 [st1|e]] eqn:Hpass.
        * assert (head (S n) = Some (st1, w1)) as Hn'.
          { simpl. by rewrite Hn, decide_True, Hpass by done. }
          destruct (IH _ _ _ Hn') as (m & st' & w' & Hm & Hhead & Hcases).
          exists m, st', w'. split_and!; [lia|done|].
          destruct Hcases as [?|[(? & -> & ?)|?]]; auto.
        * exists n, st, w. split_and!; [lia|done|].
          right; right. split; [done|]. exists e. by rewrite Hpass.
      + exists n, st, w. split_and!; [lia|done|]. by left. }
  destruct (Hgen fuel 0 initial idle eq_refl) as (m & st & w & ? & ? & ?).
  exists m, st, w. split_and!; [lia|done..].
Qed.
(** *** Invariants of the loop *)

Lemma head_ordinal n st w : head n = Some (st, w) → batchNumber st = S n.
Proof.
  revert st w. induction n as [|n IH]; intros st' w' Hn.
  - by injection Hn as <- <-.
  - apply head_step in Hn as (st & w & Hn & _ & _ & -> & _).
    simpl. rewrite (IH _ _ Hn). lia.
Qed.

Lemma count_le st : count st ≤ total - currentIndex st.
Proof. unfold batchCount. lia. Qed.

Lemma elem_of_pages st i :
  i ∈ pages st ↔ currentIndex st ≤ i < currentIndex st + count st.
Proof. by rewrite pages_seq, elem_of_seq. Qed.

(** The registry is in strictly ascending page order and lies below the
    cursor, which never passes the number of pages. *)
Lemma head_registry n st w :
  head n = Some (st, w) →
  StronglySorted lt (completedIndices st) ∧
  (∀ i, i ∈ completedIndices st → i < currentIndex st) ∧
  currentIndex st ≤ total.
Proof.
  revert st w. induction n as [|n IH]; intros st' w' Hn.
  - injection Hn as <- <-. simpl. split_and!; [constructor| |lia].
    intros i Hi. by apply elem_of_nil in Hi.
  - apply head_step in Hn as (st & w & Hn & Hlt & _ & -> & _).
    destruct (IH _ _ Hn) as (Hsorted & Hbelow & Hle).
    pose proof (count_le st) as Hcount. simpl. split_and!.
    + apply StronglySorted_app_2; [|done|].
      * intros x y Hx [_ Hy%elem_of_pages]%list_elem_of_filter.
        apply Hbelow in Hx. lia.
      * apply StronglySorted_filter. rewrite pages_seq. apply seq_lt_sorted.
    + intros i [Hi|[_ Hi%elem_of_pages]%list_elem_of_filter]%elem_of_app.
      * apply Hbelow in Hi. lia.
      * lia.
    + lia.
Qed.

(** The batches announced so far tile the pages below the cursor. *)
Lemma head_batches n st w :
  head n = Some (st, w) →
  tiles 0 (batches w) ∧ concat (batches w) = seq 0 (currentIndex st).
Proof.
  revert st w. induction n as [|n IH]; intros st' w' Hn.
  - by injection Hn as <- <-.
  - apply head_step in Hn as (st & w & Hn & Hlt & Hpass & -> & _).
    destruct (IH _ _ Hn) as (Htiles & Hcover).
    assert (w' = (pass st w).1) as -> by (by rewrite Hpass).
    rewrite batches_pass, pages_seq. simpl.
    assert (length (concat (batches w)) = currentIndex st) as Hlen.
    { by rewrite Hcover, length_seq. }
    split.
    + rewrite <- Hlen at 1. by apply (tiles_snoc 0).
    + rewrite concat_app, Hcover. simpl.
      by rewrite app_nil_r, seq_app.
Qed.

(** Every index of the registry has its result: a request was sent for
    that page, the remote service answered it with an image, and the caller
    was told so. *)
Lemma head_delivered n st w i :
  head n = Some (st, w) → i ∈ completedIndices st →
  ∃ req r rs,
    req ∈ apiCalls w ∧
    createTextPart ("Colorize page " +:+ decimal (i + 1) +:+ ":")
      ∈ req_contents req ∧
    callGeminiImageAPI (req_apiKey req) (req_contents req)
      (req_resolution req) (req_id req) = Fulfilled (r :: rs) ∧
    PageComplete {| image := r; index := i |} ∈ notifications w.
Proof.
  revert st w. induction n as [|n IH]; intros st' w' Hn Hi.
  - injection Hn as <- <-. by apply elem_of_nil in Hi.
  - apply head_step in Hn as (st & w & Hn & Hlt & Hpass & -> & _).
    assert (w' = (pass st w).1) as -> by (by rewrite Hpass).
    rewrite pass_world. simpl in *.
    apply elem_of_app in Hi as [Hi|[[res Hres] Hi]%list_elem_of_filter].
    + destruct (IH _ _ Hn Hi) as (req & r & rs & Hreq & Hlabel & Hans & Hnote).
      exists req, r, rs. rewrite !elem_of_app. auto.
    + destruct (delivered_answer _ _ _ _ Hres)
        as (req & rs & Hsent & Hlabel & Hans).
      exists req, (image res), rs. split_and!; [|done..|].
      * apply elem_of_app; right. apply list_elem_of_bind.
        exists i. split; [|done]. rewrite Hsent. left.
      * apply elem_of_app; right. right.
        apply list_elem_of_fmap. exists res. split.
        -- rewrite <- (delivered_index _ _ _ _ Hres). by destruct res.
        -- apply list_elem_of_omap. exists i.
           by rewrite elem_of_settleOrder.
Qed.

(** *** The reference window *)

Lemma refs_length st :
  length (refs st) = batchSize config `min` length (completedIndices st).
Proof. unfold refIndices. rewrite length_drop. lia. Qed.

Lemma refs_suffix st :
  ∃ older, completedIndices st = older ++ refs st.
Proof.
  unfold refIndices. eexists. symmetry. apply take_drop.
Qed.
End ColorizationFacts.

Section TranslationFacts.
Context `{core : Core}.
Variable files : list File.
Variable config : TranslateConfig.
Variable settledAt : nat → nat.

Local Abbreviation task := (translateTask files config).
Local Abbreviation notify := (thenNotify files config).
Local Abbreviation batch := (translateBatch files config).
Local Abbreviation pass := (translatePass files config settledAt).
Local Abbreviation loop := (translateLoop files config settledAt).
Local Abbreviation run := (processTranslation files config settledAt).
Local Abbreviation total := (length files).
Local Abbreviation width := (batchSize config).

Lemma batch_seq start : batch start = seq start (width `min` (total - start)).
Proof.
  unfold translateBatch. rewrite arrayFrom_seq. f_equal. lia.
Qed.

Lemma elem_of_batch start i :
  i ∈ batch start ↔ start ≤ i < start + width ∧ i < total.
Proof. rewrite batch_seq, elem_of_seq. lia. Qed.

Lemma batches_foldl_notify order w :
  batches (foldl notify w order) = batches w.
Proof.
  revert w. induction order as [|i order IH]; intros w; simpl; [done|].
  rewrite IH. unfold thenNotify.
  destruct (outcome _); [apply batches_onPageComplete|done].
Qed.

Lemma apiCalls_foldl_notify order w :
  apiCalls (foldl notify w order) = apiCalls w.
Proof.
  revert w. induction order as [|i order IH]; intros w; simpl; [done|].
  rewrite IH. unfold thenNotify. by destruct (outcome _).
Qed.

Lemma translate_batches_pass start w :
  batches (pass start w).1 = batches w ++ [batch start].
Proof.
  unfold translatePass. destruct (promiseAll _ _ _); simpl;
    by rewrite batches_foldl_notify, batches_dispatch,
               batches_onPageProcessing.
Qed.

Lemma translate_pass_outcome start w :
  (pass start w).2 =
  match promiseAll settledAt (λ i, outcome (task i)) (batch start) with
  | Rejected e => Rejected e
  | Fulfilled _ => Fulfilled ()
  end.
Proof. unfold translatePass. by destruct (promiseAll _ _ _). Qed.

(** The batches announced by a run tile the pages from [0] up to some
    page, and up to the last one when the run resolves. *)
Lemma translate_tiles fuel start w :
  tiles 0 (batches w) →
  concat (batches w) = seq 0 (start `min` total) →
  tiles 0 (batches (loop fuel start w).1) ∧
  ∃ k, k ≤ total ∧
       concat (batches (loop fuel start w).1) = seq 0 k ∧
       ((loop fuel start w).2 = Resolved → k = total).
Proof.
  revert start w. induction fuel as [|fuel IH]; intros start w Htiles Hcover.
  - simpl. destruct (decide _); simpl; (split; [done|]).
    + exists (start `min` total). split_and!; [lia|done..].
    + exists (start `min` total). split_and!; [lia|done|lia].
  - simpl. destruct (decide (start < total)) as [Hlt|Hge]; simpl.
    + assert (length (concat (batches w)) = start) as Hlen.
      { rewrite Hcover, length_seq. lia. }
      assert (tiles 0 (batches (pass start w).1)) as Htiles'.
      { rewrite translate_batches_pass, batch_seq. rewrite <- Hlen at 1.
        by apply (tiles_snoc 0). }
      assert (concat (batches (pass start w).1)
              = seq 0 (start + width `min` (total - start))) as Hcover'.
      { rewrite translate_batches_pass, concat_app, Hcover, batch_seq. simpl.
        rewrite app_nil_r, seq_app. do 2 f_equal. lia. }
      destruct (pass start w) as [w1 [[]|e]] eqn:Hpass; simpl in *.
      * apply IH; [done|]. rewrite Hcover'. f_equal. lia.
      * split; [done|]. eexists. split_and!; [|done..]. lia.
    + split; [done|]. exists (start `min` total). split_and!; [lia|done|lia].
Qed.

(** With a positive width and no rejected task the run resolves within as
    many passes as there are pages left. *)
Lemma translate_resolves fuel start w :
  1 ≤ width →
  (∀ i, i < total → ∃ v, outcome (task i) = Fulfilled v) →
  total - start ≤ fuel →
  (loop fuel start w).2 = Resolved.
Proof.
  intros Hwidth Hall. revert start w.
  induction fuel as [|fuel IH]; intros start w Hfuel; simpl.
  - destruct (decide _); [lia|done].
  - destruct (decide (start < total)) as [Hlt|Hge]; [|done].
    rewrite (surjective_pairing (pass start w)), translate_pass_outcome.
    rewrite promiseAll_fulfilled.
    + apply IH. lia.
    + intros i [_ Hi]%elem_of_batch. by apply Hall.
Qed.

(** A rejected task stops the run at the first batch that holds one: the
    run fails with the first rejection of that batch, after announcing the
    batches up to that one and no other, whatever the number of passes
    allowed beyond it. *)
Lemma translate_fails p e start w :
  1 ≤ width → start ≤ p < total → outcome (task p) = Rejected e →
  ∃ k e' w',
    start + k * width ≤ p ∧
    firstRejection ((λ i, outcome (task i))
                      <$> settleOrder settledAt (batch (start + k * width)))
      = Some e' ∧
    (∀ j i, j < k → i ∈ batch (start + j * width) →
            ∃ v, outcome (task i) = Fulfilled v) ∧
    batches w' =
      batches w ++ ((λ j, batch (start + j * width)) <$> seq 0 (S k)) ∧
    ∀ fuel, k < fuel → loop fuel start w = (w', Failed e').
Proof.
  intros Hwidth Hp Hrej.
  remember (p - start) as d eqn:Hd.
  revert start w Hp Hd. induction (lt_wf d) as [d _ IH].
  intros start w Hp ->.
  destruct (promiseAll settledAt (λ i, outcome (task i)) (batch start))
    as [vs|e0] eqn:Hall.
  - pose proof (promiseAll_inv_fulfilled _ _ _ _ Hall) as Hok.
    assert (start + width ≤ p) as Hnext.
    { destruct (decide (start + width ≤ p)) as [|Hin]; [done|].
      destruct (Hok p) as [v Hv]; [|congruence].
      apply elem_of_batch. lia. }
    destruct (IH (p - (start + width)) ltac:(lia) (start + width)
                (pass start w).1 ltac:(lia) eq_refl)
      as (k & e' & w' & Hle & Hfirst & Hbefore & Hbatches & Hrun).
    exists (S k), e', w'. split_and!.
    + lia.
    + by replace (start + S k * width) with (start + width + k * width) by lia.
    + intros [|j] i Hj Hi.
      * apply Hok. by rewrite Nat.add_0_r in Hi.
      * apply (Hbefore j i); [lia|].
        by replace (start + width + j * width)
          with (start + S j * width) by lia.
    + rewrite Hbatches, translate_batches_pass, <- app_assoc. f_equal.
      change (seq 0 (S (S k))) with (0 :: seq 1 (S k)).
      rewrite fmap_cons, <- (fmap_S_seq 0 (S k)), <- list_fmap_compose.
      cbn [app]. f_equal; [f_equal; lia|].
      apply list_fmap_ext. intros _ j _. simpl. f_equal. lia.
    + intros [|fuel] Hfuel; [lia|]. simpl.
      rewrite decide_True by lia.
      rewrite (surjective_pairing (pass start w)), translate_pass_outcome, Hall.
      apply Hrun. lia.
  - apply promiseAll_inv_rejected in Hall as Hinv.
    destruct Hinv as (Hfirst & _).
    exists 0, e0, (pass start w).1. simpl. rewrite Nat.add_0_r.
    split_and!; [lia|done|lia| |].
    + by rewrite translate_batches_pass.
    + intros [|fuel] Hfuel; [lia|]. simpl.
      rewrite decide_True by lia.
      by rewrite (surjective_pairing (pass start w)), translate_pass_outcome,
                 Hall.
Qed.
End TranslationFacts.

(** ** Progress of the chained loop *)

Section ColorizationProgress.
Context `{core : Core}.
Variable files : list File.
Variable config : ProcessingConfig.
Variable getProcessedImageBase64 : Resolver.
Variable settledAt : nat → nat.

Local Abbreviation request :=
  (pageRequest files config getProcessedImageBase64).
Local Abbreviation handed :=
  (delivered files config getProcessedImageBase64).
Local Abbreviation pass :=
  (iteration files config getProcessedImageBase64 settledAt).
Local Abbreviation loop :=
  (colorizeLoop files config getProcessedImageBase64 settledAt).
Local Abbreviation run :=
  (processColorization files config getProcessedImageBase64 settledAt).
Local Abbreviation head :=
  (loopHead files config getProcessedImageBase64 settledAt).
Local Abbreviation total := (totalPages files).
Local Abbreviation pages := (batchIndices files config).
Local Abbreviation count := (batchCount files config).
Local Abbreviation refs := (refIndices config).
Local Abbreviation next :=
  (advanced files config getProcessedImageBase64).

(** The first batch is page [0] alone, without references. *)
Lemma first_batch :
  1 ≤ total →
  count initial = 1 ∧ pages initial = [0] ∧ refs initial = [].
Proof.
  intros Htotal.
  assert (count initial = 1) as Hcount.
  { unfold batchCount, targetBatchCount, initial.
    cbn [currentIndex batchNumber]. rewrite decide_True by done. lia. }
  split_and!; [done| |apply drop_nil].
  by rewrite pages_seq, Hcount.
Qed.

(** With an empty registry every batch after the first is empty: the pass
    announces no page, sends nothing and leaves the cursor where it is. *)
Lemma empty_registry_pass st w :
  completedIndices st = [] → batchNumber st ≠ 1 →
  pass st w =
  ({| notifications := notifications w ++ [PageProcessing []];
      apiCalls := apiCalls w |},
   Fulfilled {| completedIndices := [];
                currentIndex := currentIndex st;
                batchNumber := batchNumber st + 1 |}).
Proof.
  intros Hempty Hordinal.
  assert (count st = 0) as Hcount.
  { unfold batchCount, targetBatchCount.
    rewrite Hempty, decide_False by done. cbn [length].
    rewrite Nat.min_0_r, Nat.min_0_r. done. }
  assert (pages st = []) as Hpages.
  { by rewrite pages_seq, Hcount. }
  rewrite pass_fulfilled.
  - rewrite pass_world, Hpages. unfold advanced.
    rewrite Hpages, Hcount, Hempty, Nat.add_0_r. simpl.
    by rewrite app_nil_r.
  - rewrite Hpages. intros i Hi. by apply elem_of_nil in Hi.
Qed.

(** From then on the loop never ends. *)
Lemma empty_registry_stalls fuel st w :
  completedIndices st = [] → 2 ≤ batchNumber st →
  currentIndex st < total →
  ∃ w',
    loop fuel st w =
    (w', {| completedIndices := [];
            currentIndex := currentIndex st;
            batchNumber := batchNumber st + fuel |}, Running) ∧
    batches w' = batches w ++ replicate fuel [] ∧
    apiCalls w' = apiCalls w.
Proof.
  revert st w. induction fuel as [|fuel IH]; intros st w Hempty Hordinal Hlt.
  - exists w. simpl. rewrite decide_True, app_nil_r, Nat.add_0_r by done.
    destruct st; simpl in *; by subst.
  - simpl. rewrite decide_True by done.
    rewrite empty_registry_pass by (done || lia).
    edestruct (IH {| completedIndices := [];
                     currentIndex := currentIndex st;
                     batchNumber := batchNumber st + 1 |}) as (w' & -> & Hb & Hc);
      [done|simpl; lia|done|].
    exists w'. simpl in *. split_and!.
    + do 3 f_equal. lia.
    + rewrite Hb. unfold batches. simpl.
      by rewrite omap_app, <- app_assoc.
    + done.
Qed.

(** When page [0] returns an empty result and is not the only page, the
    registry stays empty and the run is still in its loop after any number
    of passes. *)
Lemma first_page_empty_stalls fuel :
  2 ≤ total →
  outcome (request 1 [] 0) = Fulfilled (0, []) →
  (run fuel).2 = Running ∧
  completedIndices (run fuel).1.2 = [] ∧
  currentIndex (run fuel).1.2 ≤ 1.
Proof.
  intros Htotal Hblank. destruct fuel as [|fuel].
  - unfold processColorization. simpl. rewrite decide_True by lia.
    simpl. auto.
  - unfold processColorization. simpl. rewrite decide_True by lia.
    destruct first_batch as (Hcount & Hpages & Hrefs); [lia|].
    rewrite pass_fulfilled.
    + unfold advanced. rewrite Hpages, Hrefs, Hcount. simpl.
      rewrite filter_cons, decide_False.
      * edestruct (empty_registry_stalls fuel
                     {| completedIndices := []; currentIndex := 1;
                        batchNumber := 2 |}) as (w' & -> & _);
          simpl; auto with lia.
      * rewrite (delivered_None_empty _ _ _ _ _ _ Hblank). by intros [? ?].
    + rewrite Hpages, Hrefs. intros i ->%list_elem_of_singleton. eauto.
Qed.

(** *** Termination *)

Section Resolves.
Hypothesis width_positive : 1 ≤ batchSize config.
Hypothesis first_page_delivered :
  0 < total → is_Some (handed 1 [] 0).

(** Every pass moves the cursor forward. *)
Lemma head_progress n st w :
  head n = Some (st, w) →
  n ≤ currentIndex st ∧ (1 ≤ n → completedIndices st ≠ []).
Proof.
  revert st w. induction n as [|n IH]; intros st' w' Hn.
  - split; [lia|]. lia.
  - pose proof Hn as Hstep.
    apply head_step in Hstep as (st & w & Hhead & Hlt & _ & -> & _).
    destruct (IH _ _ Hhead) as (Hcur & Hreg).
    pose proof (head_ordinal _ _ _ _ _ _ _ Hhead) as Hordinal.
    destruct n as [|n].
    + injection Hhead as <- <-.
      destruct first_batch as (Hcount & Hpages & Hrefs); [simpl in Hlt; lia|].
      unfold advanced. rewrite Hpages, Hrefs, Hcount. simpl.
      rewrite filter_cons, decide_True by (apply first_page_delivered; lia).
      split; [lia|done].
    + specialize (Hreg ltac:(lia)). simpl. split.
      * assert (1 ≤ count st); [|lia].
        unfold batchCount, targetBatchCount.
        rewrite decide_False by lia.
        destruct (completedIndices st); [done|]. simpl. lia.
      * intros _. destruct (completedIndices st); done.
Qed.

(** When no request is rejected the run resolves, within as many passes
    as there are pages, with the cursor at the number of pages. *)
Lemma run_resolves fuel :
  (∀ batchNo references i, i < total →
     ∃ v, outcome (request batchNo references i) = Fulfilled v) →
  total ≤ fuel →
  (run fuel).2 = Resolved ∧ currentIndex (run fuel).1.2 = total.
Proof.
  intros Hall Hfuel.
  destruct (run_ends files config getProcessedImageBase64 settledAt fuel)
    as (n & st & w & Hn & Hhead & Hcases).
  destruct (head_progress _ _ _ Hhead) as (Hcur & _).
  destruct (head_registry _ _ _ _ _ _ _ Hhead) as (_ & _ & Hle).
  destruct Hcases as [(Hge & ->)|[(Hlt & -> & _)|(Hlt & e & Hrej & _)]].
  - simpl. split; [done|lia].
  - lia.
  - pose proof (pass_outcome files config getProcessedImageBase64
                  settledAt st w) as Hout.
    rewrite Hrej in Hout. simpl in Hout.
    destruct (promiseAll _ _ _) as [|e0] eqn:Hpa; [discriminate|].
    apply promiseAll_inv_rejected in Hpa as (_ & j & Hj & Hjrej).
    apply elem_of_pages in Hj.
    pose proof (count_le files config st).
    destruct (Hall (batchNumber st) (refs st) j) as [v Hv]; [lia|].
    congruence.
Qed.
End Resolves.
(** *** Where the indices of the registry come from *)

Lemma head_cursor_mono n k st w st' w' :
  head n = Some (st, w) → head (n + S k) = Some (st', w') →
  currentIndex st + count st ≤ currentIndex st'.
Proof.
  intros Hn. revert st' w'. induction k as [|k IH]; intros st' w'.
  - rewrite Nat.add_1_r. intros Hstep.
    apply head_step in Hstep as (st0 & w0 & Hn0 & _ & _ & -> & _).
    rewrite Hn in Hn0. injection Hn0 as <- <-. done.
  - rewrite Nat.add_succ_r. intros Hstep.
    apply head_step in Hstep as (st1 & w1 & Hn1 & _ & _ & -> & _).
    specialize (IH _ _ Hn1). simpl. lia.
Qed.

(** An index enters the registry in the pass whose batch holds it, and
    only when its task delivered a result. *)
Lemma registry_source m st' w' i :
  head m = Some (st', w') → i ∈ completedIndices st' →
  ∃ n st w, n < m ∧ head n = Some (st, w) ∧ i ∈ pages st ∧
            is_Some (handed (batchNumber st) (refs st) i).
Proof.
  revert st' w'. induction m as [|m IH]; intros st' w' Hm Hi.
  - injection Hm as <- <-. by apply elem_of_nil in Hi.
  - apply head_step in Hm as (st & w & Hhead & _ & _ & -> & _).
    simpl in Hi.
    apply elem_of_app in Hi as [Hi|[Hres Hi]%list_elem_of_filter].
    + destruct (IH _ _ Hhead Hi) as (n & st0 & w0 & Hlt & ?).
      exists n, st0, w0. split; [lia|done].
    + exists m, st, w. split_and!; [lia|done..].
Qed.

(** A page whose task delivered nothing never enters the registry. *)
Lemma undelivered_excluded n st w i m st' w' :
  head n = Some (st, w) → i ∈ pages st →
  handed (batchNumber st) (refs st) i = None →
  head m = Some (st', w') → i ∉ completedIndices st'.
Proof.
  intros Hn Hi Hnone Hm Hin.
  destruct (registry_source _ _ _ _ Hm Hin)
    as (n0 & st0 & w0 & _ & Hn0 & Hi0 & Hsome).
  apply elem_of_pages in Hi. apply elem_of_pages in Hi0.
  destruct (Nat.lt_trichotomy n0 n) as [Hlt|[->|Hgt]].
  - replace n with (n0 + S (n - n0 - 1)) in Hn by lia.
    pose proof (head_cursor_mono _ _ _ _ _ _ Hn0 Hn). lia.
  - rewrite Hn in Hn0. injection Hn0 as <- <-.
    rewrite Hnone in Hsome. by destruct Hsome.
  - replace n0 with (n + S (n0 - n - 1)) in Hn0 by lia.
    pose proof (head_cursor_mono _ _ _ _ _ _ Hn Hn0). lia.
Qed.
End ColorizationProgress.

(** The state at the head of each pass does not depend on the order in
    which the requests of the earlier batches settled. *)
Lemma head_state_any_order `{core : Core} (files : list File)
    (config : ProcessingConfig) (getProcessedImageBase64 : Resolver)
    (settledAt settledAt' : nat → nat) (n : nat) :
  fst <$> loopHead files config getProcessedImageBase64 settledAt n =
  fst <$> loopHead files config getProcessedImageBase64 settledAt' n.
Proof.
  induction n as [|n IH]; [done|]. simpl.
  destruct (loopHead _ _ _ settledAt n) as [[st w]|],
           (loopHead _ _ _ settledAt' n) as [[st' w']|];
    simpl in IH; simplify_eq; [|done].
  destruct (decide _); [|done].
  rewrite (surjective_pairing (iteration _ _ _ settledAt st' w)),
          (surjective_pairing (iteration _ _ _ settledAt' st' w')).
  rewrite !pass_outcome.
  destruct (promiseAll settledAt _ _) as [vs|e] eqn:Hall,
           (promiseAll settledAt' _ _) as [vs'|e'] eqn:Hall'; try done.
  - apply promiseAll_inv_rejected in Hall' as (_ & j & Hj & Hrej).
    destruct (promiseAll_inv_fulfilled _ _ _ _ Hall j Hj). congruence.
  - apply promiseAll_inv_rejected in Hall as (_ & j & Hj & Hrej).
    destruct (promiseAll_inv_fulfilled _ _ _ _ Hall' j Hj). congruence.
Qed.

Lemma lt_sorted_NoDup (l : list nat) : StronglySorted lt l → NoDup l.
Proof.
  induction 1 as [|x l Hl IH Hx]; constructor; [|done].
  intros Hin. rewrite Forall_forall in Hx. specialize (Hx _ Hin). lia.
Qed.

(** * The claims *)

Section Claims.
Context `{core : Core}.
Variable files : list File.
Variable config : ProcessingConfig.
Variable getProcessedImageBase64 : Resolver.
Variable settledAt : nat → nat.

(** C5.  In every pass of the chained loop the number of pages planned is
    [1] when the batch ordinal is [1] and otherwise the least of the batch
    ordinal, the configured width and the number of completed pages; in
    both cases it is then clamped to the pages that remain, and the batch
    is the contiguous range of that length starting at the cursor.  This is
    the list the pass announces through [onPageProcessing], and the cursor
    advances by its length when the pass is not interrupted. *)
Theorem planner_refines (st : LoopState) (w : World) :
  let planned :=
    plannedBatchCount (length files) (batchSize config)
      (length (completedIndices st)) (batchNumber st) (currentIndex st) in
  batchCount files config st = planned ∧
  batchIndices files config st =
    plannedPageIndices (length files) (batchSize config)
      (length (completedIndices st)) (batchNumber st) (currentIndex st) ∧
  batchIndices files config st = seq (currentIndex st) planned ∧
  batches (iteration files config getProcessedImageBase64 settledAt st w).1
    = batches w ++ [seq (currentIndex st) planned] ∧
  ∀ st',
    (iteration files config getProcessedImageBase64 settledAt st w).2
      = Fulfilled st' →
    currentIndex st' = currentIndex st + planned ∧
    batchNumber st' = batchNumber st + 1.
Proof.
  assert (batchCount files config st =
          plannedBatchCount (length files) (batchSize config)
            (length (completedIndices st)) (batchNumber st) (currentIndex st))
    as Hcount.
  { unfold batchCount, targetBatchCount, plannedBatchCount, totalPages.
    destruct (decide _); lia. }
  simpl. split_and!.
  - done.
  - unfold plannedPageIndices. by rewrite pages_seq, Hcount.
  - by rewrite pages_seq, Hcount.
  - by rewrite batches_pass, pages_seq, Hcount.
  - intros st'. rewrite pass_outcome.
    destruct (promiseAll _ _ _); intros [= <-]. simpl.
    by rewrite Hcount.
Qed.

(** C6.  At every batch of the chained loop the reference list has length
    exactly [min batchSize completedCount], and it holds the numerically
    largest indices of the registry: its members are in the registry and
    every index of the registry left out of it is smaller than each of
    them.  It is the tail of the registry, which is strictly ascending: no
    index occurs in it twice, so it is made of that many distinct indices,
    the largest of the registry in ascending order. *)
Theorem reference_window (n : nat) (st : LoopState) (w : World) :
  loopHead files config getProcessedImageBase64 settledAt n = Some (st, w) →
  length (refIndices config st)
    = batchSize config `min` length (completedIndices st) ∧
  (∀ r, r ∈ refIndices config st → r ∈ completedIndices st) ∧
  (∀ i r, i ∈ completedIndices st → i ∉ refIndices config st →
          r ∈ refIndices config st → i < r) ∧
  (∃ older, completedIndices st = older ++ refIndices config st ∧
            ∀ i r, i ∈ older → r ∈ refIndices config st → i < r) ∧
  StronglySorted lt (refIndices config st) ∧
  NoDup (refIndices config st).
Proof.
  intros Hhead.
  destruct (head_registry _ _ _ _ _ _ _ Hhead) as (Hsorted & _ & _).
  destruct (refs_suffix config st) as [older Holder].
  assert (StronglySorted lt (refIndices config st)) as Hwindow.
  { rewrite Holder in Hsorted. by eapply StronglySorted_app_1_r. }
  split_and!.
  - apply refs_length.
  - intros r Hr. rewrite Holder. apply elem_of_app. by right.
  - intros i r Hi Hout Hr. rewrite Holder in Hi, Hsorted.
    apply elem_of_app in Hi as [Hi|Hi]; [|done].
    by eapply StronglySorted_app_1_elem_of.
  - exists older. split; [done|].
    intros i r Hi Hr. rewrite Holder in Hsorted.
    by eapply StronglySorted_app_1_elem_of.
  - done.
  - by apply lt_sorted_NoDup.
Qed.

(** C8.  Throughout a chained run the registry holds each page index at
    most once and in ascending page order, whatever the order in which the
    requests of a batch settled; an index is in it only when a request for
    that page was answered with a result, which was handed to the caller;
    and a pass appends to it the indices of its batch whose task delivered
    a result, in ascending order. *)
Theorem registry_invariant (n : nat) (st : LoopState) (w : World) :
  loopHead files config getProcessedImageBase64 settledAt n = Some (st, w) →
  NoDup (completedIndices st) ∧
  StronglySorted lt (completedIndices st) ∧
  (∀ i, i ∈ completedIndices st →
     ∃ req r rs,
       req ∈ apiCalls w ∧
       createTextPart ("Colorize page " +:+ decimal (i + 1) +:+ ":")
         ∈ req_contents req ∧
       callGeminiImageAPI (req_apiKey req) (req_contents req)
         (req_resolution req) (req_id req) = Fulfilled (r :: rs) ∧
       PageComplete {| image := r; index := i |} ∈ notifications w) ∧
  (∀ st' w',
     loopHead files config getProcessedImageBase64 settledAt (S n)
       = Some (st', w') →
     ∃ batchCompletedIndices,
       completedIndices st' = completedIndices st ++ batchCompletedIndices ∧
       StronglySorted lt batchCompletedIndices ∧
       ∀ i, i ∈ batchCompletedIndices ↔
            i ∈ batchIndices files config st ∧
            is_Some (delivered files config getProcessedImageBase64
                       (batchNumber st) (refIndices config st) i)) ∧
  (∀ settledAt',
     fst <$> loopHead files config getProcessedImageBase64 settledAt' n
       = Some st).
Proof.
  intros Hhead.
  destruct (head_registry _ _ _ _ _ _ _ Hhead) as (Hsorted & _ & _).
  split_and!.
  - by apply lt_sorted_NoDup.
  - done.
  - intros i Hi. by eapply head_delivered.
  - intros st' w' Hnext.
    apply head_step in Hnext as (st0 & w0 & Hhead0 & _ & _ & -> & _).
    rewrite Hhead in Hhead0. injection Hhead0 as <- <-.
    eexists. split_and!; [reflexivity| |].
    + apply StronglySorted_filter. rewrite pages_seq. apply seq_lt_sorted.
    + intros i. rewrite list_elem_of_filter. tauto.
  - intros settledAt'.
    rewrite (head_state_any_order _ _ _ settledAt' settledAt).
    by rewrite Hhead.
Qed.

(** C10.  In every chained batch each reference index given to the request
    builder is strictly smaller than each page index of the batch: the
    references are pages announced in earlier batches, the pages of the
    batch are not. *)
Theorem references_precede_batch (n : nat) (st : LoopState) (w : World) :
  loopHead files config getProcessedImageBase64 settledAt n = Some (st, w) →
  ∀ r p, r ∈ refIndices config st → p ∈ batchIndices files config st →
    r < p ∧ r ∈ concat (batches w) ∧ p ∉ concat (batches w).
Proof.
  intros Hhead r p Hr Hp.
  destruct (head_registry _ _ _ _ _ _ _ Hhead) as (_ & Hbelow & _).
  destruct (head_batches _ _ _ _ _ _ _ Hhead) as (_ & Hcover).
  destruct (refs_suffix config st) as [older Holder].
  assert (r < currentIndex st) as Hlt.
  { apply Hbelow. rewrite Holder. apply elem_of_app. by right. }
  apply elem_of_pages in Hp. rewrite Hcover, !elem_of_seq. lia.
Qed.
End Claims.

Section ClaimsOfBothServices.
Context `{core : Core}.
Variable files : list File.
Variable config : ProcessingConfig.
Variable translateConfig : TranslateConfig.
Variable getProcessedImageBase64 : Resolver.
Variable settledAt : nat → nat.

(** C1, as amended.  In chained mode only the empty result is absorbed as
    a skip.  When every request of a batch returns, the loop goes on to its
    next pass, and a page of the batch whose result is empty is in the
    registry at no point of the run.  When a request of the batch is
    rejected (the file cannot be decoded, or the remote call raises), the
    rejection is not caught: the promise of [processColorization] is
    rejected with the first rejection of that batch. *)
Theorem colorization_absorbs_only_empty_results
    (n : nat) (st : LoopState) (w : World) :
  loopHead files config getProcessedImageBase64 settledAt n = Some (st, w) →
  currentIndex st < totalPages files →
  ((∀ i, i ∈ batchIndices files config st →
      ∃ results,
        outcome (pageRequest files config getProcessedImageBase64
                   (batchNumber st) (refIndices config st) i)
          = Fulfilled (i, results)) →
   loopHead files config getProcessedImageBase64 settledAt (S n)
     = Some (advanced files config getProcessedImageBase64 st,
             (iteration files config getProcessedImageBase64 settledAt st w).1) ∧
   ∀ i, i ∈ batchIndices files config st →
     outcome (pageRequest files config getProcessedImageBase64
                (batchNumber st) (refIndices config st) i)
       = Fulfilled (i, []) →
     ∀ m st' w',
       loopHead files config getProcessedImageBase64 settledAt m
         = Some (st', w') →
       i ∉ completedIndices st') ∧
  (∀ i e, i ∈ batchIndices files config st →
     outcome (pageRequest files config getProcessedImageBase64
                (batchNumber st) (refIndices config st) i) = Rejected e →
     ∃ e',
       firstRejection
         ((λ i, outcome (pageRequest files config getProcessedImageBase64
                           (batchNumber st) (refIndices config st) i))
            <$> settleOrder settledAt (batchIndices files config st))
         = Some e' ∧
       ∀ fuel, n < fuel →
         processColorization files config getProcessedImageBase64
           settledAt fuel
         = ((iteration files config getProcessedImageBase64 settledAt st w).1,
            st, Failed e')).
Proof.
  intros Hhead Hlt. split.
  - intros Hall. split.
    + apply head_next; [done..|].
      intros i Hi. destruct (Hall i Hi) as [results ->]. eauto.
    + intros i Hi Hempty m st' w' Hm.
      eapply undelivered_excluded; [exact Hhead|exact Hi| |exact Hm].
      by apply delivered_None_empty.
  - intros i e Hi Hrej.
    destruct (pass_rejected files config getProcessedImageBase64 settledAt
                st w i e Hi Hrej) as (e' & Hpass & Hfirst & _).
    exists e'. split; [done|].
    intros fuel Hfuel.
    replace fuel with (n + S (fuel - n - 1)) by lia.
    rewrite (run_from_head _ _ _ _ _ _ _ _ Hhead). simpl.
    rewrite decide_True by done. by rewrite Hpass.
Qed.

(** C7, as amended.  In both modes the page-index lists announced by a run
    are consecutive ranges, each beginning where the one before it ends,
    the first at [0]: no index is skipped below the point the run has
    reached and none is announced twice.  Their union is the whole of
    [[0, totalPages)] when the run resolves, which with a width of at least
    [1] it does within [totalPages] passes when no request is rejected and,
    in chained mode, page [0] delivers a result. *)
Theorem batches_tile_the_pages (fuel : nat) :
  let chained :=
    processColorization files config getProcessedImageBase64 settledAt fuel in
  let flat := processTranslation files translateConfig settledAt fuel in
  (tiles 0 (batches chained.1.1) ∧
   ∃ k, k ≤ length files ∧ concat (batches chained.1.1) = seq 0 k ∧
        (chained.2 = Resolved → k = length files)) ∧
  (tiles 0 (batches flat.1) ∧
   ∃ k, k ≤ length files ∧ concat (batches flat.1) = seq 0 k ∧
        (flat.2 = Resolved → k = length files)) ∧
  (1 ≤ batchSize config → length files ≤ fuel →
   (0 < length files →
    is_Some (delivered files config getProcessedImageBase64 1 [] 0)) →
   (∀ batchNo references i, i < length files →
      ∃ v, outcome (pageRequest files config getProcessedImageBase64
                      batchNo references i) = Fulfilled v) →
   chained.2 = Resolved) ∧
  (1 ≤ batchSize translateConfig → length files ≤ fuel →
   (∀ i, i < length files →
      ∃ v, outcome (translateTask files translateConfig i) = Fulfilled v) →
   flat.2 = Resolved).
Proof.
  simpl. split; [|split; [|split]].
  - destruct (run_ends files config getProcessedImageBase64 settledAt fuel)
      as (n & st & w & _ & Hhead & Hcases).
    destruct (head_batches _ _ _ _ _ _ _ Hhead) as (Htiles & Hcover).
    destruct (head_registry _ _ _ _ _ _ _ Hhead) as (_ & _ & Hle).
    unfold totalPages in *.
    destruct Hcases as [(Hge & ->)|[(Hlt & _ & ->)|(Hlt & e & _ & ->)]];
      simpl.
    + split; [done|]. exists (currentIndex st). split_and!; [done..|lia].
    + split; [done|]. exists (currentIndex st). split_and!; [done..|].
      discriminate.
    + rewrite batches_pass, pages_seq.
      pose proof (count_le files config st) as Hcount.
      unfold totalPages in Hcount. split.
      * replace (currentIndex st) with (0 + length (concat (batches w)))
          by (by rewrite Hcover, length_seq).
        by apply tiles_snoc.
      * exists (currentIndex st + batchCount files config st).
        split_and!; [lia| |discriminate].
        rewrite concat_app, Hcover. simpl. by rewrite app_nil_r, seq_app.
  - apply translate_tiles; [done|]. by rewrite Nat.min_0_l.
  - intros Hwidth Hfuel Hfirst Hall.
    by apply run_resolves.
  - intros Hwidth Hfuel Hall.
    apply translate_resolves; [done..|lia].
Qed.

(** C9.  With an empty list of files both services resolve at once: no
    [onPageProcessing], no [onPageComplete] and no call to the remote
    service. *)
Theorem nothing_to_do (fuel : nat) :
  processColorization [] config getProcessedImageBase64 settledAt fuel
    = (idle, initial, Resolved) ∧
  processTranslation [] translateConfig settledAt fuel = (idle, Resolved) ∧
  notifications idle = [] ∧ apiCalls idle = [].
Proof.
  split_and!; [| |done..].
  - by destruct fuel.
  - by destruct fuel.
Qed.
End ClaimsOfBothServices.

(** ** The content of a request *)

Lemma reference_parts (getProcessedImageBase64 : Resolver)
    (refIndices : list nat) (part : ContentPart) :
  part ∈ (filter (λ refIdx,
                    is_Some (referenceData (getProcessedImageBase64 refIdx)))
                 refIndices
          ≫= λ refIdx,
               [createTextPart ("This is reference page " +:+
                                decimal (refIdx + 1) +:+
                                " (already colorized):");
                createImagePart
                  (default "" (referenceData (getProcessedImageBase64 refIdx)))
                  "image/png"]) →
  ∃ refIdx refBase64,
    refIdx ∈ refIndices ∧
    getProcessedImageBase64 refIdx = Fulfilled (Some refBase64) ∧
    refBase64 ≠ "" ∧
    (part = createTextPart ("This is reference page " +:+ decimal (refIdx + 1) +:+
                            " (already colorized):") ∨
     part = createImagePart refBase64 "image/png").
Proof.
  intros Hpart. apply list_elem_of_bind in Hpart as (refIdx & Hpart & Hin).
  apply list_elem_of_filter in Hin as [[refBase64 Hdata] Hin].
  rewrite Hdata in Hpart. simpl in Hpart.
  apply referenceData_Some in Hdata as [Hanswer Hne].
  exists refIdx, refBase64. split_and!; [done..|].
  rewrite !elem_of_cons in Hpart.
  destruct Hpart as [->|[->|Hnil]]; [auto..|by apply elem_of_nil in Hnil].
Qed.

Section Requests.
Context `{core : Core}.

(** The request built for a page of a chained batch: the parts of the
    references, the label and the image of the page, the prompt.  It is
    sent only when every reference has been resolved. *)
Lemma colorization_contents (files : list File) (config : ProcessingConfig)
    (getProcessedImageBase64 : Resolver)
    (batchNo : nat) (refIndices : list nat) (pageIndex : nat)
    (req : ApiRequest) :
  req ∈ sent (pageRequest files config getProcessedImageBase64 batchNo
                refIndices pageIndex) →
  ∃ file base64 dims,
    files !! pageIndex = Some file ∧
    fileToBase64 file = Fulfilled base64 ∧
    getImageDimensions file = Fulfilled dims ∧
    firstRejection (getProcessedImageBase64 <$> refIndices) = None ∧
    req_contents req =
      (filter (λ refIdx,
                 is_Some (referenceData (getProcessedImageBase64 refIdx)))
              refIndices
       ≫= λ refIdx,
            [createTextPart ("This is reference page " +:+
                             decimal (refIdx + 1) +:+
                             " (already colorized):");
             createImagePart
               (default "" (referenceData (getProcessedImageBase64 refIdx)))
               "image/png"]) ++
      [createTextPart ("Colorize page " +:+ decimal (pageIndex + 1) +:+ ":");
       createImagePart base64 (getMimeType file);
       createTextPart
         (getColorizationPrompt (length refIndices)
            (formatAspectRatioForPrompt dims.1 dims.2))].
Proof.
  unfold pageRequest, buildSinglePageRequest, fileAt.
  destruct (files !! pageIndex) as [file|]; awaits;
    rewrite ?elem_of_nil, ?list_elem_of_singleton; try done.
  all: intros ->; simpl; eexists file, _, _;
    (split_and!; [done..|]).
  all: simplify_eq; by rewrite <- app_assoc.
Qed.

(** The request of a translated page: the prompt, then the image. *)
Lemma translation_contents (file : File) (config : TranslateConfig)
    (pageIndex : nat) (req : ApiRequest) :
  req ∈ sent (translateSinglePage file config pageIndex) →
  ∃ base64,
    fileToBase64 file = Fulfilled base64 ∧
    req_apiKey req = apiKey config ∧
    req_resolution req = formatResolution (resolution config) ∧
    req_id req = "translate_page_" +:+ decimal pageIndex +:+ "_" +:+
                 decimalN (dateNow pageIndex) ∧
    req_contents req =
      [createTextPart
         (getTranslationPrompt (fromLanguage config) (toLanguage config));
       createImagePart base64 (getMimeType file)].
Proof.
  unfold translateSinglePage. awaits;
    repeat match goal with
      | |- context [match ?l with [] => _ | _ :: _ => _ end] => destruct l
      end; simpl;
    rewrite ?app_nil_r, ?elem_of_nil, ?list_elem_of_singleton; try done.
  all: intros ->; simpl; eauto 10.
Qed.

(** A page whose remote call returns no image makes its task throw. *)
Lemma translation_empty_throws (files : list File) (config : TranslateConfig)
    (pageIndex : nat) (file : File) (base64 : string) :
  files !! pageIndex = Some file →
  fileToBase64 file = Fulfilled base64 →
  callGeminiImageAPI (apiKey config)
    [createTextPart
       (getTranslationPrompt (fromLanguage config) (toLanguage config));
     createImagePart base64 (getMimeType file)]
    (formatResolution (resolution config))
    ("translate_page_" +:+ decimal pageIndex +:+ "_" +:+
     decimalN (dateNow pageIndex)) = Fulfilled [] →
  outcome (translateTask files config pageIndex)
    = Rejected (noImageResult pageIndex).
Proof.
  intros Hfile Hdecode Hcall.
  unfold translateTask, translateSinglePage, fileAt, outcome, mbind,
    Async_bind, local. simpl.
  rewrite Hfile. simpl. rewrite Hdecode. simpl. rewrite Hcall. done.
Qed.
End Requests.

Section ClaimsOfRequests.
Context `{core : Core}.
Variable files : list File.
Variable config : ProcessingConfig.
Variable translateConfig : TranslateConfig.
Variable getProcessedImageBase64 : Resolver.
Variable settledAt : nat → nat.

(** C3, as amended.  In chained mode the instruction prompt is the final
    part of every submitted request: the label and image parts of the
    available references come first, then the label and the image of the
    page, then the prompt.  In flat mode the request has two parts, the
    prompt first and the image of the page last, without a label. *)
Theorem instruction_position :
  (∀ batchNo refIndices pageIndex req,
     req ∈ sent (pageRequest files config getProcessedImageBase64 batchNo
                   refIndices pageIndex) →
     ∃ references file base64 prompt,
       files !! pageIndex = Some file ∧
       fileToBase64 file = Fulfilled base64 ∧
       (∃ dims, getImageDimensions file = Fulfilled dims ∧
                prompt = getColorizationPrompt (length refIndices)
                           (formatAspectRatioForPrompt dims.1 dims.2)) ∧
       req_contents req =
         references ++
         [createTextPart ("Colorize page " +:+ decimal (pageIndex + 1) +:+ ":");
          createImagePart base64 (getMimeType file);
          createTextPart prompt] ∧
       last (req_contents req) = Some (createTextPart prompt) ∧
       ∀ part, part ∈ references →
         ∃ refIdx refBase64,
           refIdx ∈ refIndices ∧
           getProcessedImageBase64 refIdx = Fulfilled (Some refBase64) ∧
           refBase64 ≠ "" ∧
           (part = createTextPart ("This is reference page " +:+
                                   decimal (refIdx + 1) +:+
                                   " (already colorized):") ∨
            part = createImagePart refBase64 "image/png")) ∧
  (∀ file pageIndex req,
     req ∈ sent (translateSinglePage file translateConfig pageIndex) →
     ∃ base64 prompt,
       fileToBase64 file = Fulfilled base64 ∧
       prompt = getTranslationPrompt (fromLanguage translateConfig)
                  (toLanguage translateConfig) ∧
       req_contents req =
         [createTextPart prompt; createImagePart base64 (getMimeType file)] ∧
       head (req_contents req) = Some (createTextPart prompt) ∧
       last (req_contents req)
         = Some (createImagePart base64 (getMimeType file))).
Proof.
  split.
  - intros batchNo refIndices pageIndex req Hreq.
    apply colorization_contents in Hreq
      as (file & base64 & dims & Hfile & Hdecode & Hdims & _ & Hcontents).
    eexists _, file, base64, _.
    split_and!; [done|done|by exists dims|exact Hcontents| |].
    + rewrite Hcontents. by rewrite last_app_cons.
    + apply reference_parts.
  - intros file pageIndex req Hreq.
    apply translation_contents in Hreq
      as (base64 & Hdecode & _ & _ & _ & Hcontents).
    exists base64, (getTranslationPrompt (fromLanguage translateConfig)
                      (toLanguage translateConfig)).
    rewrite Hcontents. by split_and!.
Qed.

(** C4.  In flat mode a page whose remote call returns an empty result
    makes its task throw ["No image result for page ..."], and nothing
    catches it: the run is rejected with the first rejection of the first
    batch that holds a rejected task (every task of the batches before it
    was fulfilled), the batches up to that one have been announced, and no
    other is, however long the run is observed. *)
Theorem translation_empty_result_aborts
    (pageIndex : nat) (file : File) (base64 : string) :
  1 ≤ batchSize translateConfig →
  files !! pageIndex = Some file →
  fileToBase64 file = Fulfilled base64 →
  callGeminiImageAPI (apiKey translateConfig)
    [createTextPart
       (getTranslationPrompt (fromLanguage translateConfig)
          (toLanguage translateConfig));
     createImagePart base64 (getMimeType file)]
    (formatResolution (resolution translateConfig))
    ("translate_page_" +:+ decimal pageIndex +:+ "_" +:+
     decimalN (dateNow pageIndex)) = Fulfilled [] →
  outcome (translateTask files translateConfig pageIndex)
    = Rejected (noImageResult pageIndex) ∧
  ∃ k error w,
    k * batchSize translateConfig ≤ pageIndex ∧
    firstRejection
      ((λ i, outcome (translateTask files translateConfig i))
         <$> settleOrder settledAt
               (translateBatch files translateConfig
                  (k * batchSize translateConfig))) = Some error ∧
    (∀ j i, j < k →
       i ∈ translateBatch files translateConfig
             (j * batchSize translateConfig) →
       ∃ v, outcome (translateTask files translateConfig i) = Fulfilled v) ∧
    batches w =
      (λ j, translateBatch files translateConfig
              (j * batchSize translateConfig)) <$> seq 0 (S k) ∧
    ∀ fuel, k < fuel →
      processTranslation files translateConfig settledAt fuel
        = (w, Failed error).
Proof.
  intros Hwidth Hfile Hdecode Hempty.
  pose proof (translation_empty_throws _ _ _ _ _ Hfile Hdecode Hempty)
    as Hthrow.
  split; [done|].
  assert (pageIndex < length files) as Hlt.
  { by eapply lookup_lt_Some. }
  destruct (translate_fails files translateConfig settledAt pageIndex _ 0
              idle Hwidth ltac:(lia) Hthrow)
    as (k & error & w & Hle & Hfirst & Hbefore & Hbatches & Hrun).
  exists k, error, w. split_and!; done.
Qed.
End ClaimsOfRequests.

(** * Further properties of the two services *)

(** ** The request of a chained page *)

Section ChainedRequests.
Context `{core : Core}.
Variable files : list File.
Variable config : ProcessingConfig.
Variable getProcessedImageBase64 : Resolver.

Local Abbreviation request :=
  (pageRequest files config getProcessedImageBase64).
Local Abbreviation handed :=
  (delivered files config getProcessedImageBase64).

(** A page's task sends at most one request. *)
Lemma sent_at_most_one batchNo refs p :
  length (sent (request batchNo refs p)) ≤ 1.
Proof.
  unfold pageRequest, buildSinglePageRequest, fileAt.
  destruct (files !! p); awaits; lia.
Qed.

Lemma sent_when_delivered batchNo refs p :
  is_Some (handed batchNo refs p) →
  length (sent (request batchNo refs p)) = 1.
Proof.
  intros [result Hres].
  destruct (delivered_answer _ _ _ _ _ _ _ Hres) as (req & rs & -> & _).
  done.
Qed.

Lemma request_fields batchNo refs p req :
  req ∈ sent (request batchNo refs p) →
  req_apiKey req = apiKey config ∧
  req_resolution req = formatResolution (resolution config) ∧
  req_id req =
    "colorize_batch" +:+ decimal batchNo +:+ "_page" +:+
    decimal (p + 1) +:+ "_" +:+ decimalN (dateNow p).
Proof.
  unfold pageRequest, buildSinglePageRequest, fileAt.
  destruct (files !! p); awaits;
    rewrite ?elem_of_nil, ?list_elem_of_singleton; try done.
  all: by intros ->.
Qed.

(** X1.  The builder awaits the references, then the decoding of the file,
    then the probe of its dimensions.  The first of these awaits that is
    rejected rejects the page's request with its error: a reference that
    cannot be resolved, before the file is even read; a file that cannot be
    decoded; an image that cannot be probed.  In each case nothing is sent
    to the remote service and nothing is handed to the caller for the
    page. *)
Theorem undecodable_page_sends_nothing
    (batchNo : nat) (refIndices : list nat) (pageIndex : nat)
    (file : File) (e : Error) :
  files !! pageIndex = Some file →
  firstRejection (getProcessedImageBase64 <$> refIndices) = Some e ∨
  (firstRejection (getProcessedImageBase64 <$> refIndices) = None ∧
   (fileToBase64 file = Rejected e ∨
    ((∃ base64, fileToBase64 file = Fulfilled base64) ∧
     getImageDimensions file = Rejected e))) →
  outcome (request batchNo refIndices pageIndex) = Rejected e ∧
  sent (request batchNo refIndices pageIndex) = [] ∧
  handed batchNo refIndices pageIndex = None.
Proof.
  intros Hfile Hfail.
  assert (outcome (request batchNo refIndices pageIndex) = Rejected e ∧
          sent (request batchNo refIndices pageIndex) = []) as [Hout Hsent].
  { unfold pageRequest, buildSinglePageRequest, fileAt.
    rewrite references_awaited.
    unfold outcome, sent, mbind, Async_bind, local. rewrite Hfile. simpl.
    destruct Hfail as [->|[-> [->|[[base64 ->] Hdims]]]]; simpl; [done..|].
    rewrite Hdims. done. }
  split_and!; [done..|]. by eapply delivered_None_rejected.
Qed.

(** X2.  A request that is sent for a chained page holds, for each
    reference whose data the resolver has (neither [null] nor empty), a
    label and a PNG image part, in the order of the reference list, then the
    three parts of the page: two parts per attached reference and three
    more.  References without data are left out, and every reference of the
    list has been resolved. *)
Theorem request_parts
    (batchNo : nat) (refIndices : list nat) (pageIndex : nat)
    (req : ApiRequest) :
  req ∈ sent (request batchNo refIndices pageIndex) →
  let attached :=
    filter (λ refIdx,
              is_Some (referenceData (getProcessedImageBase64 refIdx)))
           refIndices in
  length (req_contents req) = 2 * length attached + 3 ∧
  length attached ≤ length refIndices ∧
  take (2 * length attached) (req_contents req) =
    (attached ≫= λ refIdx,
       [createTextPart ("This is reference page " +:+ decimal (refIdx + 1) +:+
                        " (already colorized):");
        createImagePart
          (default "" (referenceData (getProcessedImageBase64 refIdx)))
          "image/png"]) ∧
  req_apiKey req = apiKey config ∧
  req_resolution req = formatResolution (resolution config) ∧
  req_id req =
    "colorize_batch" +:+ decimal batchNo +:+ "_page" +:+
    decimal (pageIndex + 1) +:+ "_" +:+ decimalN (dateNow pageIndex) ∧
  (∀ refIdx, refIdx ∈ refIndices →
     ∃ refBase64, getProcessedImageBase64 refIdx = Fulfilled refBase64) ∧
  (∀ refIdx, refIdx ∈ attached ↔
     refIdx ∈ refIndices ∧
     ∃ refBase64,
       getProcessedImageBase64 refIdx = Fulfilled (Some refBase64) ∧
       refBase64 ≠ "").
Proof.
  intros Hreq attached.
  pose proof (request_fields _ _ _ _ Hreq) as Hfields.
  apply colorization_contents in Hreq
    as (file & base64 & dims & _ & _ & _ & Hresolved & Hcontents).
  rewrite Hcontents. simpl.
  fold attached. split_and!.
  - rewrite length_app, length_bind_pairs by done. simpl. lia.
  - apply length_filter.
  - rewrite take_app_length'; [done|]. by rewrite length_bind_pairs.
  - apply Hfields.
  - apply Hfields.
  - apply Hfields.
  - intros refIdx Hin.
    apply firstRejection_None in Hresolved.
    rewrite Forall_fmap, Forall_forall in Hresolved.
    by apply Hresolved.
  - intros refIdx. unfold attached. rewrite list_elem_of_filter.
    split.
    + intros [[refBase64 Hdata] Hin]. split; [done|].
      exists refBase64. by apply referenceData_Some.
    + intros [Hin (refBase64 & Hanswer & Hne)]. split; [|done].
      exists refBase64. by apply referenceData_Some.
Qed.
End ChainedRequests.

(** ** What a chained run lets the caller and the remote service see *)

Section BarrierFacts.
Context `{core : Core}.

Lemma barrier_completions current (results : list ProcessedResult) :
  Forall (λ result, index result ∈ current) results →
  barrier current (PageComplete <$> results).
Proof. induction 1; simpl; auto. Qed.

(** A batch and the completions of its pages may follow any notifications
    that respect the barrier. *)
Lemma barrier_batch current ns indices (results : list ProcessedResult) :
  barrier current ns →
  Forall (λ result, index result ∈ indices) results →
  barrier current (ns ++ PageProcessing indices :: (PageComplete <$> results)).
Proof.
  intros Hns Hresults. revert current Hns.
  induction ns as [|[l|r] ns IH]; intros current Hns; simpl in *.
  - by apply barrier_completions.
  - by apply IH.
  - destruct Hns. split; [done|]. by apply IH.
Qed.

Lemma completions_app (w : World) ns :
  omap (λ n : Notification, match n with
             | PageProcessing _ => None
             | PageComplete result => Some result
             end) (notifications w ++ ns) =
  completions w ++
  omap (λ n : Notification, match n with
             | PageProcessing _ => None
             | PageComplete result => Some result
             end) ns.
Proof. apply omap_app. Qed.

Lemma completions_of_results (results : list ProcessedResult) :
  omap (λ n : Notification, match n with
             | PageProcessing _ => None
             | PageComplete result => Some result
             end) (PageComplete <$> results) = results.
Proof. induction results as [|r l IH]; [done|]. simpl. f_equal. exact IH. Qed.
End BarrierFacts.

Section ChainedObservations.
Context `{core : Core}.
Variable files : list File.
Variable config : ProcessingConfig.
Variable getProcessedImageBase64 : Resolver.
Variable settledAt : nat → nat.

Local Abbreviation request :=
  (pageRequest files config getProcessedImageBase64).
Local Abbreviation handed :=
  (delivered files config getProcessedImageBase64).
Local Abbreviation pass :=
  (iteration files config getProcessedImageBase64 settledAt).
Local Abbreviation run :=
  (processColorization files config getProcessedImageBase64 settledAt).
Local Abbreviation head :=
  (loopHead files config getProcessedImageBase64 settledAt).
Local Abbreviation total := (totalPages files).
Local Abbreviation pages := (batchIndices files config).
Local Abbreviation count := (batchCount files config).
Local Abbreviation refs := (refIndices config).

Lemma index_handed batchNo references (l : list nat) :
  index <$> omap (handed batchNo references) l =
  filter (λ p, is_Some (handed batchNo references p)) l.
Proof.
  induction l as [|p l IH]; [done|]. rewrite filter_cons. csimpl.
  destruct (handed batchNo references p) as [result|] eqn:Hres.
  - rewrite decide_True by eauto. csimpl.
    by rewrite IH, (delivered_index _ _ _ _ _ _ _ Hres).
  - rewrite decide_False by (by intros [? ?]). done.
Qed.

Lemma completions_pass st w :
  completions (pass st w).1 =
  completions w ++
  omap (handed (batchNumber st) (refs st)) (settleOrder settledAt (pages st)).
Proof.
  rewrite pass_world. unfold completions at 1.
  cbn [notifications]. rewrite completions_app. simpl.
  by rewrite completions_of_results.
Qed.

(** The pages of a batch that hand a result to the caller, whatever the
    order in which they settle. *)
Lemma handed_settled st :
  filter (λ p, is_Some (handed (batchNumber st) (refs st) p))
         (settleOrder settledAt (pages st))
  ≡ₚ filter (λ p, is_Some (handed (batchNumber st) (refs st) p)) (pages st).
Proof. by rewrite settleOrder_perm. Qed.

(** How a run of at most [fuel] passes leaves the world: as it is at a head
    of the loop, or as the pass begun at a head leaves it. *)
Lemma run_world fuel :
  ∃ n st w, head n = Some (st, w) ∧
    ((∃ r, run fuel = (w, st, r) ∧ ∀ e, r ≠ Failed e) ∨
     (currentIndex st < total ∧
      ∃ e, run fuel = ((pass st w).1, st, Failed e))).
Proof.
  destruct (run_ends files config getProcessedImageBase64 settledAt fuel)
    as (n & st & w & _ & Hhead & Hcases).
  exists n, st, w. split; [done|].
  destruct Hcases as [(_ & ->)|[(_ & _ & ->)|(Hlt & e & _ & ->)]].
  - left. by exists Resolved.
  - left. by exists Running.
  - right. eauto.
Qed.

(** At a head of the loop the pages reported complete are those of the
    registry. *)
Lemma head_completions n st w :
  head n = Some (st, w) → index <$> completions w ≡ₚ completedIndices st.
Proof.
  revert st w. induction n as [|n IH]; intros st' w' Hn.
  - by injection Hn as <- <-.
  - apply head_step in Hn as (st & w & Hhead & _ & Hpass & -> & _).
    assert (w' = (pass st w).1) as -> by (by rewrite Hpass).
    rewrite completions_pass, fmap_app, index_handed. simpl.
    by rewrite (IH _ _ Hhead), handed_settled.
Qed.

(** In a batch the pages that hand over a result are at most as many as the
    requests sent, which are at most as many as the pages. *)
Lemma batch_counts batchNo references (l : list nat) :
  length (filter (λ p, is_Some (handed batchNo references p)) l)
    ≤ length (l ≫= λ i, sent (request batchNo references i)) ∧
  length (l ≫= λ i, sent (request batchNo references i)) ≤ length l.
Proof.
  induction l as [|p l [IHlow IHhigh]]; [simpl; lia|].
  rewrite filter_cons, bind_cons, length_app.
  pose proof (sent_at_most_one files config getProcessedImageBase64
                batchNo references p) as Hone.
  destruct (decide _) as [Hsome|_]; simpl in *; [|lia].
  rewrite (sent_when_delivered _ _ _ _ _ _ Hsome) in *. lia.
Qed.


Lemma pass_counts st w :
  length (apiCalls (pass st w).1) ≤ length (apiCalls w) + count st ∧
  length (completions (pass st w).1) + length (apiCalls w) ≤
    length (completions w) + length (apiCalls (pass st w).1).
Proof.
  destruct (batch_counts (batchNumber st) (refs st) (pages st))
    as (Hblow & Hbhigh).
  assert (length (pages st) = count st) as Hlen
    by (by rewrite pages_seq, length_seq).
  rewrite completions_pass, pass_world. simpl. rewrite !length_app.
  assert (length (omap (handed (batchNumber st) (refs st))
                     (settleOrder settledAt (pages st)))
          = length (filter (λ p, is_Some (handed (batchNumber st) (refs st) p))
                      (pages st))) as ->.
  { rewrite <- (length_fmap index), index_handed.
    apply Permutation_length, handed_settled. }
  lia.
Qed.

(** What holds of the idle world and is kept by a pass, whether the pass is
    interrupted or not, holds of the world a run leaves. *)
Lemma run_world_invariant (P : World → Prop) :
  P idle → (∀ st w, P w → P (pass st w).1) → ∀ fuel, P (run fuel).1.1.
Proof.
  intros Hidle Hpass fuel.
  assert (∀ n st w, head n = Some (st, w) → P w) as Hheads.
  { induction n as [|n IH]; intros st' w' Hn.
    - by injection Hn as <- <-.
    - apply head_step in Hn as (st & w & Hhead & _ & Heq & _).
      assert (w' = (pass st w).1) as -> by (by rewrite Heq).
      eauto. }
  destruct (run_world fuel)
    as (n & st & w & Hhead & [(r & -> & _)|(_ & e & ->)]); simpl; eauto.
Qed.

Lemma request_length_bound batchNo references p req :
  req ∈ sent (request batchNo references p) →
  length (req_contents req) ≤ 2 * length references + 3.
Proof.
  intros Hreq.
  apply colorization_contents in Hreq
    as (file & base64 & dims & _ & _ & _ & _ & ->).
  rewrite length_app, length_bind_pairs by done. simpl.
  pose proof (length_filter
                (λ refIdx,
                   is_Some (referenceData (getProcessedImageBase64 refIdx)))
                references).
  lia.
Qed.

(** X3.  No request of a chained run carries more than [batchSize]
    references: each request sent has at most [2 * batchSize + 3] content
    parts, whatever the run does and however long it is observed. *)
Theorem requests_are_bounded (fuel : nat) :
  Forall (λ req, length (req_contents req) ≤ 2 * batchSize config + 3)
         (apiCalls
            (processColorization files config getProcessedImageBase64
               settledAt fuel).1.1).
Proof.
  apply run_world_invariant; [constructor|].
  intros st w Hw. rewrite pass_world. simpl.
  apply Forall_app. split; [done|].
  apply Forall_forall. intros req (i & Hreq & _)%list_elem_of_bind.
  apply request_length_bound in Hreq.
  pose proof (refs_length config st). lia.
Qed.

(** X4.  The ramp of the chained planner: the batch planned after [n]
    passes has at most [n + 1] pages; from the second batch on it has no
    more pages than there are references, which are no more than
    [batchSize]; and the first batch of a non-empty run is page [0] alone,
    without references. *)
Theorem batch_ramp (n : nat) (st : LoopState) (w : World) :
  head n = Some (st, w) →
  length (pages st) ≤ S n ∧
  length (refs st) ≤ batchSize config ∧
  (1 ≤ n → length (pages st) ≤ length (refs st)) ∧
  (n = 0 → 1 ≤ total → pages st = [0] ∧ refs st = []).
Proof.
  intros Hhead.
  pose proof (head_ordinal _ _ _ _ _ _ _ Hhead) as Hordinal.
  pose proof (refs_length config st) as Hrefs.
  assert (length (pages st) = count st) as Hlen
    by (by rewrite pages_seq, length_seq).
  rewrite Hlen. unfold batchCount, targetBatchCount. rewrite Hordinal.
  split_and!.
  - destruct (decide _); lia.
  - lia.
  - intros Hn. rewrite decide_False by lia. lia.
  - intros -> Htotal. injection Hhead as <- _.
    by destruct (first_batch files config Htotal) as (_ & ? & ?).
Qed.

(** X5.  In a chained run no page is reported complete twice; every page of
    the registry has been reported complete; and while no pass has been
    interrupted the pages reported complete are exactly those of the
    registry. *)
Theorem completions_match_registry (fuel : nat) :
  NoDup (index <$> completions (run fuel).1.1) ∧
  (∀ i, i ∈ completedIndices (run fuel).1.2 →
        i ∈ index <$> completions (run fuel).1.1) ∧
  ((∀ e, (run fuel).2 ≠ Failed e) →
   index <$> completions (run fuel).1.1 ≡ₚ completedIndices (run fuel).1.2).
Proof.
  destruct (run_world fuel)
    as (n & st & w & Hhead & [(r & -> & Hok)|(Hlt & e & ->)]); simpl;
    pose proof (head_completions _ _ _ Hhead) as Hperm;
    destruct (head_registry _ _ _ _ _ _ _ Hhead) as (Hsorted & Hbelow & _).
  - split_and!.
    + rewrite Hperm. by apply lt_sorted_NoDup.
    + intros i Hi. by rewrite Hperm.
    + done.
  - rewrite completions_pass, fmap_app, index_handed, Hperm.
    split_and!.
    + apply NoDup_app. split_and!.
      * rewrite ?Hperm. by apply lt_sorted_NoDup.
      * intros i Hi [_ Hin]%list_elem_of_filter. rewrite ?Hperm in Hi.
        apply elem_of_settleOrder, elem_of_pages in Hin.
        apply Hbelow in Hi. lia.
      * rewrite handed_settled. apply lt_sorted_NoDup, StronglySorted_filter.
        rewrite pages_seq. apply seq_lt_sorted.
    + intros i Hi. apply elem_of_app. left. by rewrite Hperm.
    + intros Hnot. by destruct (Hnot e).
Qed.
End ChainedObservations.

Lemma filter_all {A} (P : A → Prop) `{∀ x, Decision (P x)} (l : list A) :
  Forall P l → filter P l = l.
Proof.
  induction 1 as [|x l Hx Hl IH]; [done|].
  by rewrite filter_cons, decide_True, IH.
Qed.

Section ChainedEdges.
Context `{core : Core}.
Variable files : list File.
Variable config : ProcessingConfig.
Variable getProcessedImageBase64 : Resolver.
Variable settledAt : nat → nat.

Local Abbreviation request :=
  (pageRequest files config getProcessedImageBase64).
Local Abbreviation handed :=
  (delivered files config getProcessedImageBase64).
Local Abbreviation pass :=
  (iteration files config getProcessedImageBase64 settledAt).
Local Abbreviation loop :=
  (colorizeLoop files config getProcessedImageBase64 settledAt).
Local Abbreviation run :=
  (processColorization files config getProcessedImageBase64 settledAt).
Local Abbreviation head :=
  (loopHead files config getProcessedImageBase64 settledAt).
Local Abbreviation total := (totalPages files).
Local Abbreviation pages := (batchIndices files config).
Local Abbreviation count := (batchCount files config).
Local Abbreviation refs := (refIndices config).
Local Abbreviation next :=
  (advanced files config getProcessedImageBase64).

(** X6.  A chained run never sends a second request for a page: the
    requests sent are at most as many as the pages announced, and the
    results handed to the caller at most as many as the requests. *)
Theorem no_page_is_retried (fuel : nat) :
  length (completions (run fuel).1.1) ≤ length (apiCalls (run fuel).1.1) ∧
  length (apiCalls (run fuel).1.1) ≤ length (concat (batches (run fuel).1.1)).
Proof.
  apply (run_world_invariant files config getProcessedImageBase64 settledAt
           (λ w, length (completions w) ≤ length (apiCalls w) ∧
                 length (apiCalls w) ≤ length (concat (batches w)))).
  - simpl. lia.
  - intros st w [Hlow Hhigh].
    destruct (pass_counts files config getProcessedImageBase64 settledAt st w)
      as (Hcalls & Hdone).
    rewrite batches_pass, concat_app, length_app. simpl.
    rewrite app_nil_r, pages_seq, length_seq. lia.
Qed.

(** A pass whose batch is empty announces the empty batch, sends nothing
    and moves nothing but the batch number. *)
Lemma empty_batch_pass st w :
  count st = 0 →
  pass st w =
  ({| notifications := notifications w ++ [PageProcessing []];
      apiCalls := apiCalls w |},
   Fulfilled {| completedIndices := completedIndices st;
                currentIndex := currentIndex st;
                batchNumber := batchNumber st + 1 |}).
Proof.
  intros Hcount.
  assert (pages st = []) as Hpages by (by rewrite pages_seq, Hcount).
  rewrite pass_fulfilled.
  - rewrite pass_world, Hpages. unfold advanced.
    rewrite Hpages, Hcount, Nat.add_0_r. simpl.
    by rewrite !app_nil_r.
  - rewrite Hpages. intros i Hi. by apply elem_of_nil in Hi.
Qed.

Lemma zero_width_stalls fuel st w :
  batchSize config = 0 → 2 ≤ batchNumber st → currentIndex st < total →
  ∃ w',
    loop fuel st w =
    (w', {| completedIndices := completedIndices st;
            currentIndex := currentIndex st;
            batchNumber := batchNumber st + fuel |}, Running) ∧
    apiCalls w' = apiCalls w.
Proof.
  intros Hwidth. revert st w.
  induction fuel as [|fuel IH]; intros st w Hordinal Hlt.
  - exists w. simpl. rewrite decide_True, Nat.add_0_r by done.
    by destruct st.
  - simpl. rewrite decide_True by done.
    rewrite empty_batch_pass.
    + edestruct (IH {| completedIndices := completedIndices st;
                       currentIndex := currentIndex st;
                       batchNumber := batchNumber st + 1 |}) as (w' & -> & Hc);
        [simpl; lia|done|].
      exists w'. simpl in *. split; [|done]. do 3 f_equal. lia.
    + unfold batchCount, targetBatchCount.
      rewrite Hwidth, decide_False by lia. lia.
Qed.

(** X8.  With a batch size of [0] a chained run over two pages or more
    never resolves: every batch after the first is empty, so the run fails
    on page [0] or stays in its loop with the cursor at page [1], and it
    sends at most the one request of page [0]. *)
Theorem zero_width_never_resolves (fuel : nat) :
  batchSize config = 0 → 2 ≤ totalPages files →
  let result :=
    processColorization files config getProcessedImageBase64 settledAt fuel in
  result.2 ≠ Resolved ∧
  currentIndex result.1.2 ≤ 1 ∧
  length (apiCalls result.1.1) ≤ 1.
Proof.
  intros Hwidth Htotal. unfold processColorization.
  destruct fuel as [|fuel]; simpl.
  - rewrite decide_True by lia. simpl. split_and!; [done|lia..].
  - rewrite decide_True by lia.
    assert (1 ≤ total) as Hpos by lia.
    destruct (first_batch files config Hpos) as (Hcount & Hpages & Hrefs).
    pose proof (pass_world files config getProcessedImageBase64 settledAt
                  initial idle) as Hworld.
    pose proof (pass_outcome files config getProcessedImageBase64 settledAt
                  initial idle) as Hout.
    pose proof (sent_at_most_one files config getProcessedImageBase64
                  1 [] 0) as Hone.
    destruct (pass initial idle) as [w1 [st1|e]] eqn:Hpass; simpl in *.
    + destruct (promiseAll _ _ _); [|discriminate].
      injection Hout as ->.
      edestruct (zero_width_stalls fuel (next initial) w1)
        as (w' & -> & Hcalls); [done|simpl; lia|simpl; lia|].
      simpl. rewrite Hcount, Hcalls, Hworld, Hpages, Hrefs. simpl.
      rewrite app_nil_r. split_and!; [done|lia|done].
    + rewrite Hworld, Hpages, Hrefs. simpl. rewrite app_nil_r.
      split_and!; [done|lia|done].
Qed.

(** X10.  A chained run over a single page is over after one pass, whatever
    the batch size: it resolves when the request of page [0] returns, with
    the page in the registry exactly when a result was handed over, and it
    fails with the error of the request when that is rejected. *)
Theorem single_page_run (fuel : nat) :
  total = 1 → 1 ≤ fuel →
  (run fuel).2 =
    match outcome (request 1 [] 0) with
    | Fulfilled _ => Resolved
    | Rejected e => Failed e
    end ∧
  batches (run fuel).1.1 = [[0]] ∧
  completedIndices (run fuel).1.2 =
    match handed 1 [] 0 with Some _ => [0] | None => [] end.
Proof.
  intros Htotal Hfuel. destruct fuel as [|fuel]; [lia|].
  unfold processColorization. simpl. rewrite decide_True by lia.
  assert (1 ≤ total) as Hpos by lia.
  destruct (first_batch files config Hpos) as (Hcount & Hpages & Hrefs).
  pose proof (batches_pass files config getProcessedImageBase64 settledAt
                initial idle) as Hbatches.
  rewrite Hpages in Hbatches.
  destruct (outcome (request 1 [] 0)) as [v|e] eqn:Hout.
  - rewrite pass_fulfilled in *.
    + assert (loop fuel (next initial) (pass initial idle).1
              = ((pass initial idle).1, next initial, Resolved)) as ->.
      { destruct fuel; simpl; rewrite decide_False; try done;
          rewrite Hcount; lia. }
      simpl. split_and!; [done..|].
      rewrite Hpages, Hrefs, filter_cons. simpl.
      destruct (handed 1 [] 0); [by rewrite decide_True by eauto|].
      by rewrite decide_False by (by intros [? ?]).
    + rewrite Hpages, Hrefs. intros i ->%list_elem_of_singleton. eauto.
    + rewrite Hpages, Hrefs. intros i ->%list_elem_of_singleton. eauto.
  - destruct (pass_rejected files config getProcessedImageBase64 settledAt
                initial idle 0 e) as (e' & Hpass & _ & j & Hj & Hrej).
    { rewrite Hpages. left. }
    { by rewrite Hrefs. }
    rewrite Hpages, Hrefs in *.
    apply list_elem_of_singleton in Hj as ->.
    simpl in Hrej. assert (e' = e) as -> by congruence.
    rewrite Hpass. simpl. split_and!; [done..|].
    by rewrite (delivered_None_rejected _ _ _ _ _ _ _ Hout).
Qed.

(** *** When every page is answered with a result *)


Section AllDelivered.
Hypothesis all_delivered :
  ∀ batchNo references i, i < total → is_Some (handed batchNo references i).

Lemma head_all_delivered n st w :
  head n = Some (st, w) → completedIndices st = seq 0 (currentIndex st).
Proof.
  revert st w. induction n as [|n IH]; intros st' w' Hn.
  - by injection Hn as <- <-.
  - apply head_step in Hn as (st & w & Hhead & Hlt & _ & -> & _).
    simpl. rewrite (IH _ _ Hhead), seq_app. f_equal. simpl.
    rewrite pages_seq.
    pose proof (count_le files config st) as Hcount.
    assert (∀ i, i ∈ seq (currentIndex st) (count st) →
                 is_Some (handed (batchNumber st) (refs st) i)) as Hall.
    { intros i Hi%elem_of_seq. apply all_delivered. lia. }
    apply filter_all, Forall_forall, Hall.
Qed.

(** X20.  When every request is answered with a result, the references of
    a batch are the pages immediately before the cursor, [batchSize] of them
    or all of them when fewer have been completed. *)
Theorem references_before_cursor (n : nat) (st : LoopState) (w : World) :
  head n = Some (st, w) →
  let k := batchSize config `min` currentIndex st in
  completedIndices st = seq 0 (currentIndex st) ∧
  refs st = seq (currentIndex st - k) k.
Proof.
  intros Hhead k. pose proof (head_all_delivered _ _ _ Hhead) as Hregistry.
  split; [done|].
  unfold refIndices. rewrite Hregistry, length_seq, drop_seq.
  subst k. f_equal; lia.
Qed.

End AllDelivered.
End ChainedEdges.

(** ** What a flat run lets the caller and the remote service see *)

Section FlatObservations.
Context `{core : Core}.
Variable files : list File.
Variable config : TranslateConfig.
Variable settledAt : nat → nat.

Local Abbreviation task := (translateTask files config).
Local Abbreviation notify := (thenNotify files config).
Local Abbreviation batch := (translateBatch files config).
Local Abbreviation pass := (translatePass files config settledAt).
Local Abbreviation loop := (translateLoop files config settledAt).
Local Abbreviation run := (processTranslation files config settledAt).
Local Abbreviation total := (length files).
Local Abbreviation width := (batchSize config).
Local Abbreviation given :=
  (λ i, match outcome (task i) with
        | Fulfilled result => Some result
        | Rejected _ => None
        end).

(** The request behind a translated page. *)
Lemma translated_answer i result :
  outcome (task i) = Fulfilled result →
  ∃ file base64 rs,
    files !! i = Some file ∧ fileToBase64 file = Fulfilled base64 ∧
    sent (task i) =
      [{| req_apiKey := apiKey config;
          req_contents :=
            [createTextPart
               (getTranslationPrompt (fromLanguage config) (toLanguage config));
             createImagePart base64 (getMimeType file)];
          req_resolution := formatResolution (resolution config);
          req_id := "translate_page_" +:+ decimal i +:+ "_" +:+
                    decimalN (dateNow i) |}] ∧
    callGeminiImageAPI (apiKey config)
      [createTextPart
         (getTranslationPrompt (fromLanguage config) (toLanguage config));
       createImagePart base64 (getMimeType file)]
      (formatResolution (resolution config))
      ("translate_page_" +:+ decimal i +:+ "_" +:+ decimalN (dateNow i))
      = Fulfilled (image result :: rs) ∧
    index result = i.
Proof.
  unfold translateTask, translateSinglePage, fileAt.
  destruct (files !! i) as [file|]; [|by awaits].
  unfold outcome, sent, mbind, Async_bind, local, callApi. simpl.
  destruct (fileToBase64 file) as [base64|e] eqn:Hdecode; simpl; [|done].
  destruct (callGeminiImageAPI _ _ _ _) as [[|r rs]|e] eqn:Hcall; simpl;
    try done.
  intros [= <-]. exists file, base64, rs. by rewrite Hcall.
Qed.

Lemma translated_sent_le i : length (sent (task i)) ≤ 1.
Proof.
  unfold translateTask, translateSinglePage, fileAt.
  destruct (files !! i) as [file|]; [|simpl; lia].
  unfold outcome, sent, mbind, Async_bind, local, callApi. simpl.
  destruct (fileToBase64 file) as [base64|e]; simpl; [|lia].
  destruct (callGeminiImageAPI _ _ _ _) as [[|r rs]|e]; simpl; lia.
Qed.

Lemma index_given (l : list nat) :
  index <$> omap given l = filter (λ i, is_Some (given i)) l.
Proof.
  induction l as [|i l IH]; [done|]. rewrite filter_cons. csimpl.
  destruct (outcome (task i)) as [result|e] eqn:Hout.
  - rewrite decide_True by eauto. csimpl. rewrite IH.
    by destruct (translated_answer _ _ Hout) as (_ & _ & _ & _ & _ & _ & _ & ->).
  - rewrite decide_False by (by intros [? ?]). done.
Qed.

Lemma world_foldl_notify order w :
  foldl notify w order =
  {| notifications := notifications w ++ (PageComplete <$> omap given order);
     apiCalls := apiCalls w |}.
Proof.
  revert w. induction order as [|i order IH]; intros w.
  - simpl. rewrite app_nil_r. by destruct w.
  - cbn [foldl]. rewrite IH. unfold thenNotify. csimpl.
    destruct (outcome (task i)); simpl; [|done].
    by rewrite <- app_assoc.
Qed.

Lemma translate_pass_world start w :
  (pass start w).1 =
  {| notifications :=
       notifications w ++
       PageProcessing (batch start) ::
       (PageComplete <$> omap given (settleOrder settledAt (batch start)));
     apiCalls := apiCalls w ++ (batch start ≫= λ i, sent (task i)) |}.
Proof.
  unfold translatePass.
  destruct (promiseAll _ _ _); simpl; rewrite world_foldl_notify; simpl;
    by rewrite <- app_assoc.
Qed.

Lemma translate_completions_pass start w :
  completions (pass start w).1 =
  completions w ++ omap given (settleOrder settledAt (batch start)).
Proof.
  rewrite translate_pass_world. unfold completions at 1.
  cbn [notifications]. rewrite completions_app. simpl.
  by rewrite completions_of_results.
Qed.

(** What a pass keeps, a run keeps, with the batch start that goes with the
    world it leaves. *)
Lemma translate_run_invariant (P : nat → World → Prop) :
  P 0 idle →
  (∀ start w, P start w → start < total → P (start + width) (pass start w).1) →
  ∀ fuel, ∃ start,
    P start (run fuel).1 ∧ ((run fuel).2 = Resolved → total ≤ start).
Proof.
  intros Hidle Hpass fuel. unfold processTranslation.
  generalize 0 idle Hidle. clear Hidle.
  induction fuel as [|fuel IH]; intros start w Hw; simpl.
  - destruct (decide _); simpl; exists start; (split; [done|]);
      [discriminate|lia].
  - destruct (decide (start < total)) as [Hlt|Hge]; simpl.
    + specialize (Hpass _ _ Hw Hlt).
      destruct (pass start w) as [w1 [[]|e]]; simpl in *.
      * by apply IH.
      * exists (start + width). split; [done|discriminate].
    + exists start. split; [done|lia].
Qed.

(** The shape of the world a flat run leaves after [k] passes. *)
Lemma translate_run_shape fuel :
  ∃ k,
    (∀ j, j < k → j * width < total) ∧
    ((run fuel).2 = Resolved → total ≤ k * width) ∧
    batches (run fuel).1 = (λ j, batch (j * width)) <$> seq 0 k ∧
    apiCalls (run fuel).1 =
      (seq 0 ((k * width) `min` total) ≫= λ i, sent (task i)) ∧
    index <$> completions (run fuel).1 ≡ₚ
      filter (λ i, is_Some (given i)) (seq 0 ((k * width) `min` total)).
Proof.
  destruct (translate_run_invariant
    (λ start w, ∃ k,
       start = k * width ∧
       (∀ j, j < k → j * width < total) ∧
       batches w = (λ j, batch (j * width)) <$> seq 0 k ∧
       apiCalls w = (seq 0 (start `min` total) ≫= λ i, sent (task i)) ∧
       index <$> completions w ≡ₚ
         filter (λ i, is_Some (given i)) (seq 0 (start `min` total))))
    with (fuel := fuel) as (start & (k & -> & Hk & Hb & Hc & Hd) & Hres).
  - exists 0. split_and!; [done| |done..]. intros j Hj. lia.
  - intros start w (k & -> & Hk & Hb & Hc & Hd) Hlt.
    exists (S k). split_and!.
    + simpl. lia.
    + intros j Hj. destruct (decide (j = k)) as [->|]; [done|].
      apply Hk. lia.
    + rewrite translate_batches_pass, Hb, seq_S, fmap_app. done.
    + rewrite translate_pass_world. simpl. rewrite Hc, batch_seq.
      replace ((k * width + width) `min` total)
        with (((k * width) `min` total) + (width `min` (total - k * width)))
        by lia.
      rewrite seq_app, bind_app. do 3 f_equal. lia.
    + rewrite translate_completions_pass, fmap_app, index_given, Hd.
      rewrite settleOrder_perm, batch_seq.
      replace ((k * width + width) `min` total)
        with (((k * width) `min` total) + (width `min` (total - k * width)))
        by lia.
      rewrite seq_app, filter_app.
      replace (0 + (k * width) `min` total) with (k * width) by lia. done.
  - exists k. split_and!; done.
Qed.
End FlatObservations.

Section FlatProperties.
Context `{core : Core}.
Variable files : list File.
Variable config : TranslateConfig.
Variable settledAt : nat → nat.

Local Abbreviation task := (translateTask files config).
Local Abbreviation batch := (translateBatch files config).
Local Abbreviation pass := (translatePass files config settledAt).
Local Abbreviation loop := (translateLoop files config settledAt).
Local Abbreviation run := (processTranslation files config settledAt).
Local Abbreviation total := (length files).
Local Abbreviation width := (batchSize config).
Local Abbreviation given :=
  (λ i, match outcome (task i) with
        | Fulfilled result => Some result
        | Rejected _ => None
        end).

(** X9.  With a batch size of [0] a flat run over at least one file never
    ends: every pass announces the empty batch, the batch start stays at
    [0], and nothing is ever sent or completed. *)
Theorem zero_width_translation_spins (fuel : nat) :
  batchSize config = 0 → 1 ≤ length files →
  processTranslation files config settledAt fuel =
  ({| notifications := replicate fuel (PageProcessing []); apiCalls := [] |},
   Running).
Proof.
  intros Hwidth Htotal. unfold processTranslation.
  enough (∀ w, loop fuel 0 w =
               ({| notifications :=
                     notifications w ++ replicate fuel (PageProcessing []);
                   apiCalls := apiCalls w |}, Running)) as Hloop.
  { by rewrite Hloop. }
  assert (batch 0 = []) as Hbatch.
  { rewrite batch_seq, Hwidth. done. }
  induction fuel as [|fuel IH]; intros w; simpl; rewrite decide_True by lia.
  - rewrite app_nil_r. by destruct w.
  - rewrite (surjective_pairing (pass 0 w)), translate_pass_outcome.
    rewrite translate_pass_world, Hbatch, Hwidth. simpl.
    rewrite IH. simpl. by rewrite <- app_assoc, app_nil_r.
Qed.

(** X11.  In a flat run every result handed to the caller answers a request
    that was sent for its page: the request holds the prompt and the image
    of that page's file, the remote service answered it with at least one
    image, and the first of them is the one handed over.  No page is
    reported complete twice. *)
Theorem translations_are_answers (fuel : nat) :
  (∀ result, PageComplete result ∈ notifications (run fuel).1 →
     ∃ file base64 req rs,
       files !! index result = Some file ∧
       fileToBase64 file = Fulfilled base64 ∧
       req ∈ apiCalls (run fuel).1 ∧
       req_contents req =
         [createTextPart
            (getTranslationPrompt (fromLanguage config) (toLanguage config));
          createImagePart base64 (getMimeType file)] ∧
       callGeminiImageAPI (req_apiKey req) (req_contents req)
         (req_resolution req) (req_id req) = Fulfilled (image result :: rs)) ∧
  NoDup (index <$> completions (run fuel).1).
Proof.
  split.
  - destruct (translate_run_invariant files config settledAt
      (λ _ w, ∀ result, PageComplete result ∈ notifications w →
         ∃ file base64 req rs,
           files !! index result = Some file ∧
           fileToBase64 file = Fulfilled base64 ∧
           req ∈ apiCalls w ∧
           req_contents req =
             [createTextPart
                (getTranslationPrompt (fromLanguage config)
                   (toLanguage config));
              createImagePart base64 (getMimeType file)] ∧
           callGeminiImageAPI (req_apiKey req) (req_contents req)
             (req_resolution req) (req_id req)
             = Fulfilled (image result :: rs))) with (fuel := fuel)
      as (_ & Hinv & _); [| |exact Hinv].
    + intros result Hin. by apply elem_of_nil in Hin.
    + intros start w IH _ result. rewrite translate_pass_world. simpl.
      rewrite elem_of_app, elem_of_cons, list_elem_of_fmap.
      intros [Hin|[Heq|(r & [= <-] & Hr)]]; [|discriminate|].
      * destruct (IH _ Hin) as (file & base64 & req & rs & ? & ? & ? & ?).
        exists file, base64, req, rs. rewrite elem_of_app. auto.
      * apply list_elem_of_omap in Hr as (i & Hi & Hgiven).
        destruct (outcome (task i)) as [r'|] eqn:Hout; [|discriminate].
        injection Hgiven as ->.
        destruct (translated_answer _ _ _ _ Hout)
          as (file & base64 & rs & Hfile & Hdecode & Hsent & Hcall & Hidx).
        exists file, base64,
          {| req_apiKey := apiKey config;
             req_contents :=
               [createTextPart
                  (getTranslationPrompt (fromLanguage config)
                     (toLanguage config));
                createImagePart base64 (getMimeType file)];
             req_resolution := formatResolution (resolution config);
             req_id := "translate_page_" +:+ decimal i +:+ "_" +:+
                       decimalN (dateNow i) |}, rs.
        rewrite Hidx. split_and!; [done|done| |reflexivity|exact Hcall].
        apply elem_of_app. right. apply list_elem_of_bind.
        exists i. rewrite Hsent. split; [left|].
        by apply elem_of_settleOrder in Hi.
  - destruct (translate_run_shape files config settledAt fuel)
      as (k & _ & _ & _ & _ & ->).
    apply lt_sorted_NoDup, StronglySorted_filter, seq_lt_sorted.
Qed.

Lemma length_bind_sent (l : list nat) :
  (∀ i, i ∈ l → ∃ v, outcome (task i) = Fulfilled v) →
  length (l ≫= λ i, sent (task i)) = length l.
Proof.
  induction l as [|i l IH]; intros Hall; [done|].
  rewrite bind_cons, length_app, IH.
  - destruct (Hall i) as [v Hv]; [left|].
    by destruct (translated_answer _ _ _ _ Hv) as (? & ? & ? & _ & _ & -> & _).
  - intros j Hj. apply Hall. by right.
Qed.

(** X12.  When every page of a flat run is answered with a result and the
    batch size is at least [1], the run resolves within as many passes as
    there are pages; exactly one request per page has been sent, the one
    that bears the page's identifier, and every page has been reported
    complete exactly once. *)
Theorem all_pages_translated (fuel : nat) :
  1 ≤ width → total ≤ fuel →
  (∀ i, i < total → ∃ v, outcome (task i) = Fulfilled v) →
  (run fuel).2 = Resolved ∧
  apiCalls (run fuel).1 ≡ₚ (seq 0 total ≫= λ i, sent (task i)) ∧
  (∀ i, i < total →
     ∃ req, sent (task i) = [req] ∧
            req_id req = "translate_page_" +:+ decimal i +:+ "_" +:+
                         decimalN (dateNow i)) ∧
  length (apiCalls (run fuel).1) = total ∧
  index <$> completions (run fuel).1 ≡ₚ seq 0 total ∧
  concat (batches (run fuel).1) = seq 0 total.
Proof.
  intros Hwidth Hfuel Hall.
  assert ((run fuel).2 = Resolved) as Hresolved.
  { apply translate_resolves; [done..|lia]. }
  destruct (translate_run_shape files config settledAt fuel)
    as (k & _ & Hk & _ & Hcalls & Hdone).
  specialize (Hk Hresolved).
  replace ((k * width) `min` total) with total in * by lia.
  destruct (translate_tiles files config settledAt fuel 0 idle)
    as (_ & k' & _ & Hcover & Hfull); [done|by rewrite Nat.min_0_l|].
  split_and!.
  - done.
  - by rewrite Hcalls.
  - intros i Hi. destruct (Hall i Hi) as [v Hv].
    destruct (translated_answer _ _ _ _ Hv) as (? & ? & ? & _ & _ & -> & _).
    by eexists.
  - rewrite Hcalls, length_bind_sent, length_seq; [done|].
    intros i Hi%elem_of_seq. apply Hall. lia.
  - rewrite Hdone, filter_all; [done|].
    apply Forall_forall. intros i Hi%elem_of_seq.
    destruct (Hall i) as [v ->]; [lia|]. eauto.
  - unfold processTranslation. rewrite Hcover. f_equal. by apply Hfull.
Qed.

(** X13.  The batches of a flat run that resolves are the chunks of the
    page range: as many as the number of pages divided by the batch size,
    rounded up, each of them [batchSize] pages wide but for the last, which
    takes what is left. *)
Theorem translation_batches_are_chunks (fuel : nat) :
  1 ≤ width → (run fuel).2 = Resolved →
  batches (run fuel).1 =
  (λ j, seq (j * width) (width `min` (total - j * width)))
    <$> seq 0 ((total + width - 1) `div` width).
Proof.
  intros Hwidth Hresolved.
  destruct (translate_run_shape files config settledAt fuel)
    as (k & Hbelow & Hk & -> & _).
  specialize (Hk Hresolved).
  assert (k = (total + width - 1) `div` width) as <-.
  { apply (Nat.div_unique _ _ _ (total + width - 1 - k * width)).
    - lia.
    - destruct k as [|k]; [simpl in *; lia|].
      specialize (Hbelow k ltac:(lia)). simpl in *. lia. }
  apply list_fmap_ext. intros _ j _. apply batch_seq.
Qed.

(** X14.  A flat run that fails does not take back what its failing batch
    achieved: the batch was announced, and every page of it whose task was
    fulfilled has been reported complete all the same; the error of the run
    is the first rejection of that batch. *)
Theorem translation_failure_keeps_completions
    (fuel : nat) (w : World) (e : Error) :
  run fuel = (w, Failed e) →
  ∃ start earlier,
    notifications w =
      earlier ++ PageProcessing (batch start) ::
      (PageComplete <$> omap given (settleOrder settledAt (batch start))) ∧
    firstRejection ((λ i, outcome (task i))
                      <$> settleOrder settledAt (batch start)) = Some e ∧
    ∀ i result, i ∈ batch start → outcome (task i) = Fulfilled result →
      PageComplete result ∈ notifications w.
Proof.
  unfold processTranslation. generalize 0 idle.
  induction fuel as [|fuel IH]; intros start w0; simpl.
  - destruct (decide _); discriminate.
  - destruct (decide (start < total)); [|discriminate].
    rewrite (surjective_pairing (pass start w0)), translate_pass_outcome.
    destruct (promiseAll _ _ _) as [vs|e0] eqn:Hall.
    + apply IH.
    + intros [= <- <-].
      apply promiseAll_inv_rejected in Hall as (Hfirst & _).
      exists start, (notifications w0).
      rewrite translate_pass_world. simpl. split_and!; [done..|].
      intros i result Hi Hout.
      apply elem_of_app. right. right.
      apply list_elem_of_fmap. exists result. split; [done|].
      apply list_elem_of_omap. exists i.
      rewrite elem_of_settleOrder, Hout. done.
Qed.
End FlatProperties.

Section Barrier.
Context `{core : Core}.
Variable files : list File.
Variable config : ProcessingConfig.
Variable translateConfig : TranslateConfig.
Variable getProcessedImageBase64 : Resolver.
Variable settledAt : nat → nat.

(** X7.  The batch boundary, in both services: every result handed to the
    caller is that of a page of the batch announced last, so a page is
    never reported complete before its batch is announced nor after the
    next one is. *)
Theorem batch_boundary (fuel : nat) :
  barrier []
    (notifications
       (processColorization files config getProcessedImageBase64 settledAt
          fuel).1.1) ∧
  barrier []
    (notifications (processTranslation files translateConfig settledAt fuel).1).
Proof.
  split.
  - apply (run_world_invariant files config getProcessedImageBase64 settledAt
             (λ w, barrier [] (notifications w))); [done|].
    intros st w Hw. rewrite pass_world. simpl.
    apply barrier_batch; [done|].
    apply Forall_forall. intros result (i & Hi & Hres)%list_elem_of_omap.
    rewrite (delivered_index _ _ _ _ _ _ _ Hres).
    by apply elem_of_settleOrder in Hi.
  - destruct (translate_run_invariant files translateConfig settledAt
                (λ _ w, barrier [] (notifications w))) with (fuel := fuel)
      as (_ & Hinv & _); [done| |exact Hinv].
    intros start w Hw _. rewrite translate_pass_world. simpl.
    apply barrier_batch; [done|].
    apply Forall_forall. intros result (i & Hi & Hres)%list_elem_of_omap.
    destruct (outcome (translateTask files translateConfig i))
      as [r|] eqn:Hout; [|discriminate].
    injection Hres as ->.
    destruct (translated_answer _ _ _ _ Hout)
      as (_ & _ & _ & _ & _ & _ & _ & ->).
    by apply elem_of_settleOrder in Hi.
Qed.
End Barrier.

(** ** The second copy of the colorization module *)

Section EarlierCopy.
Context `{core : Core}.
Variable files : list File.
Variable config : ProcessingConfig.
Variable getProcessedImageBase64 : Resolver.
Variable settledAt : nat → nat.

Local Abbreviation request :=
  (Earlier.pageRequest files config getProcessedImageBase64).
Local Abbreviation pass :=
  (Earlier.iteration files config getProcessedImageBase64 settledAt).
Local Abbreviation pages := (batchIndices files config).
Local Abbreviation count := (batchCount files config).
Local Abbreviation refs := (refIndices config).
Local Abbreviation first batchNo references :=
  (λ p, match outcome (request batchNo references p) with
        | Fulfilled (_, r :: _) => Some {| image := r; index := p |}
        | Fulfilled (_, []) => None
        | Rejected _ => None
        end).

Lemma earlier_request_index batchNo references p q rs :
  outcome (request batchNo references p) = Fulfilled (q, rs) → q = p.
Proof.
  unfold Earlier.pageRequest, Earlier.buildSinglePageRequest.
  awaits; congruence.
Qed.

(** The loop over the results of a batch whose requests all returned: the
    results are handed over in page order. *)
Lemma foldl_collect batchNo references (l : list nat) w acc :
  (∀ i, i ∈ l → ∃ v, outcome (request batchNo references i) = Fulfilled v) →
  foldl Earlier.collect (w, acc)
    (fulfilled ((λ i, outcome (request batchNo references i)) <$> l)) =
  ({| notifications :=
        notifications w ++ (PageComplete <$> omap (first batchNo references) l);
      apiCalls := apiCalls w |},
   acc ++ filter (λ p, is_Some (first batchNo references p)) l).
Proof.
  revert w acc. induction l as [|p l IH]; intros w acc Hall.
  - simpl. rewrite !app_nil_r. by destruct w.
  - destruct (Hall p) as [[q rs] Hout]; [left|].
    pose proof (earlier_request_index _ _ _ _ _ Hout) as ->.
    rewrite filter_cons. csimpl. unfold fulfilled. csimpl.
    rewrite Hout. csimpl.
    change (omap _ ((λ i, outcome (request batchNo references i)) <$> l))
      with (fulfilled ((λ i, outcome (request batchNo references i)) <$> l)).
    destruct rs as [|r rs]; simpl.
    + apply IH. intros i Hi. apply Hall. by right.
    + rewrite IH by (intros i Hi; apply Hall; by right). simpl.
      by rewrite <- !app_assoc.
Qed.

(** X16.  In the second copy a batch is reported only once it has settled
    as a whole.  When every request of the batch returns, its results are
    handed to the caller in page order, whatever the order in which the
    requests settled, and the pages with a result are appended to the
    registry in that order.  When one request is rejected the pass throws
    before any result of the batch is handed over: the batch was announced
    and its requests were sent, but no page of it is reported complete. *)
Theorem earlier_pass_reports_after_the_batch (st : LoopState) (w : World) :
  ((∀ i, i ∈ pages st →
      ∃ v, outcome (request (batchNumber st) (refs st) i) = Fulfilled v) →
   pass st w =
   ({| notifications :=
         notifications w ++
         PageProcessing (pages st) ::
         (PageComplete <$> omap (first (batchNumber st) (refs st)) (pages st));
       apiCalls :=
         apiCalls w ++
         (pages st ≫= λ i, sent (request (batchNumber st) (refs st) i)) |},
    Fulfilled
      {| completedIndices :=
           completedIndices st ++
           filter (λ p, is_Some (first (batchNumber st) (refs st) p))
                  (pages st);
         currentIndex := currentIndex st + count st;
         batchNumber := batchNumber st + 1 |})) ∧
  (∀ i e, i ∈ pages st →
     outcome (request (batchNumber st) (refs st) i) = Rejected e →
     ∃ e',
       firstRejection
         ((λ i, outcome (request (batchNumber st) (refs st) i))
            <$> settleOrder settledAt (pages st)) = Some e' ∧
       pass st w =
       ({| notifications := notifications w ++ [PageProcessing (pages st)];
           apiCalls :=
             apiCalls w ++
             (pages st ≫= λ i, sent (request (batchNumber st) (refs st) i)) |},
        Rejected e')).
Proof.
  split.
  - intros Hall. unfold Earlier.iteration.
    rewrite (promiseAll_fulfilled _ _ _ Hall), (foldl_collect _ _ _ _ _ Hall).
    simpl. by rewrite <- app_assoc.
  - intros i e Hi Hrej. unfold Earlier.iteration.
    destruct (promiseAll_rejected settledAt
                (λ i, outcome (request (batchNumber st) (refs st) i))
                (pages st) i e Hi Hrej) as (e' & -> & Hfirst & _).
    by exists e'.
Qed.

(** X17.  The two copies build the same request for a page but for its last
    part: whenever the builder of the first copy succeeds, that of the
    second does too, with the same parts before the prompt and its own
    prompt last.  Both await the references first and are rejected with the
    error of the first reference that cannot be resolved.  Once the
    references are resolved, the second copy, which does not probe the
    image, succeeds whenever the file can be decoded, also when the probe
    would fail; and both are rejected with the error of the decoding when
    the file cannot be decoded. *)
Theorem builders_differ_in_the_prompt
    (pageIndex : nat) (file : File) (refIndices : list nat) :
  (∀ contents,
     outcome (buildSinglePageRequest pageIndex file refIndices
                getProcessedImageBase64) = Fulfilled contents →
     ∃ parts prompt,
       contents = parts ++ [createTextPart prompt] ∧
       outcome (Earlier.buildSinglePageRequest pageIndex file refIndices
                  getProcessedImageBase64)
         = Fulfilled
             (parts ++
              [createTextPart
                 (Earlier.getColorizationPrompt (length refIndices))])) ∧
  (∀ e,
     firstRejection (getProcessedImageBase64 <$> refIndices) = Some e →
     outcome (Earlier.buildSinglePageRequest pageIndex file refIndices
                getProcessedImageBase64) = Rejected e ∧
     outcome (buildSinglePageRequest pageIndex file refIndices
                getProcessedImageBase64) = Rejected e) ∧
  (∀ base64,
     firstRejection (getProcessedImageBase64 <$> refIndices) = None →
     fileToBase64 file = Fulfilled base64 →
     ∃ contents,
       outcome (Earlier.buildSinglePageRequest pageIndex file refIndices
                  getProcessedImageBase64) = Fulfilled contents ∧
       length contents =
         2 * length (filter
                       (λ refIdx,
                          is_Some
                            (referenceData (getProcessedImageBase64 refIdx)))
                       refIndices) + 3) ∧
  (∀ e,
     firstRejection (getProcessedImageBase64 <$> refIndices) = None →
     fileToBase64 file = Rejected e →
     outcome (Earlier.buildSinglePageRequest pageIndex file refIndices
                getProcessedImageBase64) = Rejected e ∧
     outcome (buildSinglePageRequest pageIndex file refIndices
                getProcessedImageBase64) = Rejected e).
Proof.
  unfold buildSinglePageRequest, Earlier.buildSinglePageRequest.
  rewrite !references_awaited.
  unfold outcome, mbind, Async_bind, local, mret, Async_ret.
  split_and!.
  - intros contents. simpl.
    destruct (firstRejection _); simpl; [done|].
    destruct (fileToBase64 file) as [base64|]; simpl; [|done].
    destruct (getImageDimensions file) as [dims|]; simpl; [|done].
    intros [= <-]. eauto.
  - intros e ->. done.
  - intros base64 -> ->. simpl. eexists. split; [done|].
    rewrite !length_app, length_bind_pairs by done. simpl. lia.
  - intros e -> ->. done.
Qed.
End EarlierCopy.

(** ** When a run resolves *)

Section WhenARunResolves.
Context `{core : Core}.
Variable files : list File.
Variable config : ProcessingConfig.
Variable translateConfig : TranslateConfig.
Variable getProcessedImageBase64 : Resolver.
Variable settledAt : nat → nat.

Local Abbreviation request :=
  (pageRequest files config getProcessedImageBase64).
Local Abbreviation handed :=
  (delivered files config getProcessedImageBase64).
Local Abbreviation pass :=
  (iteration files config getProcessedImageBase64 settledAt).
Local Abbreviation run :=
  (processColorization files config getProcessedImageBase64 settledAt).
Local Abbreviation head :=
  (loopHead files config getProcessedImageBase64 settledAt).
Local Abbreviation total := (totalPages files).
Local Abbreviation count := (batchCount files config).
Local Abbreviation refs := (refIndices config).
Local Abbreviation next :=
  (advanced files config getProcessedImageBase64).
Local Abbreviation task := (translateTask files translateConfig).
Local Abbreviation translation :=
  (processTranslation files translateConfig settledAt).

(** One pass is enough for a single page whose request returns. *)
Lemma one_page_one_pass v :
  total = 1 → outcome (request 1 [] 0) = Fulfilled v →
  (run 1).2 = Resolved.
Proof.
  intros Htotal Hout. unfold processColorization. simpl.
  rewrite decide_True by lia.
  assert (1 ≤ total) as Hpos by lia.
  destruct (first_batch files config Hpos) as (Hcount & Hpages & Hrefs).
  rewrite pass_fulfilled.
  - rewrite decide_False; [done|]. simpl. rewrite Hcount. lia.
  - rewrite Hpages, Hrefs. intros i ->%list_elem_of_singleton. eauto.
Qed.

(** X18.  When no request of a chained run is rejected and the batch size
    is at least [1], the run resolves exactly when there is at most one page
    or page [0] hands over a result: a first page without a result is the
    one thing that keeps a longer run in its loop for ever. *)
Theorem colorization_resolves_iff :
  1 ≤ batchSize config →
  (∀ batchNo references i, i < total →
     ∃ v, outcome (request batchNo references i) = Fulfilled v) →
  (∃ fuel, (run fuel).2 = Resolved) ↔ (total ≤ 1 ∨ is_Some (handed 1 [] 0)).
Proof.
  intros Hwidth Hall. split.
  - intros [fuel Hresolved].
    destruct (decide (total ≤ 1)) as [|Hmany]; [by left|]. right.
    destruct (handed 1 [] 0) as [result|] eqn:Hres; [eauto|].
    exfalso.
    destruct (Hall 1 [] 0) as [[q rs] Hout]; [lia|].
    pose proof (pageRequest_index _ _ _ _ _ _ _ _ Hout) as ->.
    assert (rs = []) as ->.
    { unfold delivered in Hres. rewrite Hout in Hres. by destruct rs. }
    destruct (first_page_empty_stalls files config getProcessedImageBase64
                settledAt fuel) as (Hrunning & _); [lia|done|].
    congruence.
  - intros Hcases.
    destruct (decide (total = 0)) as [Hnone|Hsome].
    { exists 0. unfold processColorization. simpl.
      by rewrite decide_False by lia. }
    destruct (decide (is_Some (handed 1 [] 0))) as [Hfirst|Hblank].
    + exists total. by apply run_resolves.
    + destruct Hcases as [Hone|Hfirst]; [|done].
      destruct (Hall 1 [] 0) as [v Hout]; [lia|].
      exists 1. apply (one_page_one_pass v); [lia|done].
Qed.

(** A flat run that has resolved stays resolved when it is observed for
    longer. *)
Lemma translate_resolved_mono fuel start w :
  (translateLoop files translateConfig settledAt fuel start w).2 = Resolved →
  translateLoop files translateConfig settledAt (S fuel) start w =
  translateLoop files translateConfig settledAt fuel start w.
Proof.
  revert start w. induction fuel as [|fuel IH]; intros start w.
  - simpl. destruct (decide _); [discriminate|done].
  - intros Hresolved. cbn [translateLoop] in *.
    destruct (decide _); [|done].
    destruct (translatePass _ _ _ _ _) as [w1 [[]|e]]; [|done].
    by apply IH.
Qed.

(** X19.  With a batch size of at least [1] a flat run resolves exactly
    when every page is answered with a result: one page without a result,
    or one rejected request, and the run never resolves. *)
Theorem translation_resolves_iff :
  1 ≤ batchSize translateConfig →
  (∃ fuel, (translation fuel).2 = Resolved) ↔
  (∀ i, i < length files → ∃ v, outcome (task i) = Fulfilled v).
Proof.
  intros Hwidth. split.
  - intros [fuel Hresolved] i Hi.
    destruct (outcome (task i)) as [v|e] eqn:Hout; [eauto|]. exfalso.
    destruct (translate_fails files translateConfig settledAt i e 0 idle
                Hwidth ltac:(lia) Hout)
      as (k & e' & w' & _ & _ & _ & _ & Hfails).
    assert (∀ extra, (translation (fuel + extra)).2 = Resolved) as Hlater.
    { induction extra as [|extra IH]; [by rewrite Nat.add_0_r|].
      rewrite Nat.add_succ_r. unfold processTranslation in *.
      by rewrite translate_resolved_mono. }
    specialize (Hlater (S k)).
    unfold processTranslation in Hlater.
    rewrite (Hfails (fuel + S k)) in Hlater by lia. discriminate.
  - intros Hall. exists (length files).
    apply translate_resolves; [done..|lia].
Qed.
End WhenARunResolves.
(** * The claims in the studio *)

Import Studio.

Lemma studio_target references label data mime prompt :
  targetImage (references ++
               [TextPart label; ImagePart data mime; TextPart prompt]) = data.
Proof.
  unfold targetImage. rewrite omap_app. simpl.
  by rewrite (last_snoc data).
Qed.

(** The studio's resolver has every reference. *)
Lemma studio_resolves (references : list nat) :
  firstRejection (resolver <$> references) = None.
Proof. induction references as [|r l IH]; [done|exact IH]. Qed.

(** The studio colours every page that is neither corrupt, blank nor
    faulty, whatever the batch and the references. *)
Lemma studio_colors (files : list File) (config : ProcessingConfig)
    (batchNo : nat) (references : list nat) (i : nat) (file : File) :
  files !! i = Some file →
  file ≠ "corrupt" → file ≠ "blank" → file ≠ "fault" →
  outcome (pageRequest files config resolver batchNo references i)
    = Fulfilled (i, ["colored " +:+ file]).
Proof.
  intros Hfile Hcorrupt Hblank Hfault.
  unfold pageRequest, buildSinglePageRequest, fileAt.
  rewrite references_awaited, studio_resolves.
  unfold outcome, mbind, Async_bind, local, mret, Async_ret, callApi.
  rewrite Hfile. cbn [fst snd fileToBase64 getImageDimensions studio].
  case_decide as Heq; [exfalso; exact (Hcorrupt Heq)|].
  cbn [fst snd callGeminiImageAPI studio].
  rewrite <- app_assoc. cbn [app createTextPart createImagePart].
  rewrite studio_target.
  case_decide as Heq1; [exfalso; exact (Hblank Heq1)|].
  case_decide as Heq2; [exfalso; exact (Hfault Heq2)|].
  reflexivity.
Qed.

(** A head of the loop is named by its state; the world that goes with it
    is whatever the run has made of it. *)
Lemma reached {A B} (o : option (A * B)) (a : A) (P : Prop) :
  fst <$> o = Some a → (∀ b, o = Some (a, b) → P) → P.
Proof.
  destruct o as [[a' b]|]; simpl; [|discriminate].
  intros [= ->] HP. by apply (HP b).
Qed.

(** The three scenarios of the specification: twelve pages and three pages
    with a width of four in chained mode, ten pages with a width of three in
    flat mode. *)
Example scenario_A :
  batches (processColorization (pages 12) (cfg 4) resolver backwards 12).1.1
  = [[0]; [1]; [2; 3]; [4; 5; 6; 7]; [8; 9; 10; 11]].
Proof. vm_compute. reflexivity. Qed.

Example scenario_B :
  batches (processColorization (pages 3) (cfg 4) resolver backwards 3).1.1
  = [[0]; [1]; [2]].
Proof. vm_compute. reflexivity. Qed.

Example scenario_C :
  batches (processTranslation (pages 10) (tcfg 3) backwards 10).1
  = [[0; 1; 2]; [3; 4; 5]; [6; 7; 8]; [9]].
Proof. vm_compute. reflexivity. Qed.

(** A blank page in the middle of a chained run is skipped and the run
    resolves: the pages [1] and [2] stay out of the registry. *)
Example blank_pages_are_skipped :
  let run :=
    processColorization
      (book ["page0"; "blank"; "blank"; "page3"; "page4"; "page5"]) (cfg 4)
      resolver backwards 6 in
  run.2 = Resolved ∧ completedIndices run.1.2 = [0; 3; 4; 5] ∧
  batches run.1.1 = [[0]; [1]; [2]; [3]; [4; 5]].
Proof. vm_compute. done. Qed.

(** C5 on the fourth batch of scenario A: four pages starting at the
    cursor, and the cursor moves by four. *)
Lemma planner_refines_witness :
  let st := {| completedIndices := seq 0 4; currentIndex := 4;
               batchNumber := 4 |} in
  batchIndices (pages 12) (cfg 4) st = [4; 5; 6; 7] ∧
  ∃ st', (iteration (pages 12) (cfg 4) resolver backwards st idle).2
           = Fulfilled st' ∧
         currentIndex st' = 8 ∧ batchNumber st' = 5.
Proof.
  intros st.
  destruct (planner_refines (pages 12) (cfg 4) resolver backwards st idle)
    as (_ & _ & Hrange & _ & Hnext).
  split; [by rewrite Hrange|].
  eexists. split; [vm_compute; reflexivity|].
  by apply Hnext.
Defined.

(** C1: a remote call that raises, or a file that cannot be decoded, in a
    chained run rejects the promise of [processColorization]. *)
Lemma colorization_fault_counterexample :
  (processColorization (book ["page0"; "fault"; "page2"]) (cfg 4)
     resolver backwards 5).2 = Failed "503 service unavailable" ∧
  (processColorization (book ["page0"; "corrupt"; "page2"]) (cfg 4)
     resolver backwards 5).2 = Failed "cannot decode file".
Proof. split; vm_compute; reflexivity. Qed.

(** C1, as amended, on three pages: page [1] is blank and stays out of
    the registry for ever; page [2] is faulty and its rejection is that of
    the run. *)
Lemma colorization_absorbs_only_empty_results_witness :
  (∀ m st w,
     loopHead (book ["page0"; "blank"; "fault"]) (cfg 4) resolver
       backwards m = Some (st, w) →
     1 ∉ completedIndices st) ∧
  ∃ e, ∀ fuel, 2 < fuel →
    (processColorization (book ["page0"; "blank"; "fault"]) (cfg 4)
       resolver backwards fuel).2 = Failed e.
Proof.
  split.
  - apply (reached (loopHead (book ["page0"; "blank"; "fault"]) (cfg 4)
                      resolver backwards 1)
             {| completedIndices := [0]; currentIndex := 1;
                batchNumber := 2 |}); [vm_compute; reflexivity|].
    intros w1 Hhead.
    destruct (colorization_absorbs_only_empty_results
                (book ["page0"; "blank"; "fault"]) (cfg 4) resolver backwards
                1 _ w1 Hhead) as [Hskip _].
    { vm_compute. lia. }
    destruct Hskip as [_ Hnever].
    { intros i Hi. vm_compute in Hi.
      apply list_elem_of_singleton in Hi as ->.
      eexists. vm_compute. reflexivity. }
    apply (Hnever 1).
    + vm_compute. left.
    + vm_compute. reflexivity.
  - apply (reached (loopHead (book ["page0"; "blank"; "fault"]) (cfg 4)
                      resolver backwards 2)
             {| completedIndices := [0]; currentIndex := 2;
                batchNumber := 3 |}); [vm_compute; reflexivity|].
    intros w2 Hhead.
    destruct (colorization_absorbs_only_empty_results
                (book ["page0"; "blank"; "fault"]) (cfg 4) resolver backwards
                2 _ w2 Hhead) as [_ Hfail].
    { vm_compute. lia. }
    destruct (Hfail 2 "503 service unavailable") as (e & _ & Hrun).
    { vm_compute. left. }
    { vm_compute. reflexivity. }
    exists e. intros fuel Hfuel. by rewrite (Hrun fuel Hfuel).
Defined.

(** C2.  Two pages, of which the first is answered with an empty result:
    the registry stays empty, every later batch is empty, the cursor stays
    at page [1] and the run never leaves its loop, however many passes it
    is given. *)
Theorem first_page_blank_never_resolves (fuel : nat) :
  let run :=
    processColorization (book ["blank"; "page1"]) (cfg 4) resolver
      backwards fuel in
  run.2 = Running ∧ completedIndices run.1.2 = [] ∧
  currentIndex run.1.2 ≤ 1 ∧
  totalPages (book ["blank"; "page1"]) = 2.
Proof.
  simpl. split_and!; [..|done];
    apply first_page_empty_stalls;
    try (vm_compute; lia); vm_compute; reflexivity.
Qed.

(** C3: the request of a translated page ends with the image, and the
    prompt comes first. *)
Lemma translation_prompt_first_counterexample :
  ∃ req,
    sent (translateSinglePage (core := studio) "page0" (tcfg 3) 0) = [req] ∧
    last (req_contents req) = Some (createImagePart "page0" "image/jpeg") ∧
    last (req_contents req)
      ≠ Some (createTextPart (getTranslationPrompt "Japanese" "English")) ∧
    head (req_contents req)
      = Some (createTextPart (getTranslationPrompt "Japanese" "English")).
Proof.
  eexists. split; [vm_compute; reflexivity|]. split_and!.
  - vm_compute. reflexivity.
  - vm_compute. discriminate.
  - vm_compute. reflexivity.
Qed.

(** C3, as amended, on page [1] of a batch with reference [0], and on a
    translated page. *)
Lemma instruction_position_witness :
  (∀ req,
     req ∈ sent (pageRequest (pages 3) (cfg 4) resolver 2 [0] 1) →
     ∃ prompt, last (req_contents req) = Some (createTextPart prompt)) ∧
  (∀ req,
     req ∈ sent (translateSinglePage (core := studio) "page0" (tcfg 3) 0) →
     ∃ prompt, head (req_contents req) = Some (createTextPart prompt)).
Proof.
  destruct (instruction_position (pages 3) (cfg 4) (tcfg 3) resolver)
    as [Hchained Hflat].
  split.
  - intros req Hreq.
    destruct (Hchained 2 [0] 1 req Hreq)
      as (_ & _ & _ & prompt & _ & _ & _ & _ & Hlast & _).
    by exists prompt.
  - intros req Hreq.
    destruct (Hflat _ 0 req Hreq) as (_ & prompt & _ & _ & _ & Hhead & _).
    by exists prompt.
Defined.

(** C4 on three files translated two at a time, the second being blank:
    its task throws and the run is rejected in the first batch. *)
Lemma translation_empty_result_aborts_witness :
  outcome (translateTask (book ["page0"; "blank"; "page2"]) (tcfg 2) 1)
    = Rejected "No image result for page 2" ∧
  ∃ w e, ∀ fuel, 1 < fuel →
    processTranslation (book ["page0"; "blank"; "page2"]) (tcfg 2)
      backwards fuel = (w, Failed e).
Proof.
  destruct (translation_empty_result_aborts
              (book ["page0"; "blank"; "page2"]) (tcfg 2) backwards
              1 "blank" "blank")
    as (Hthrow & k & e & w & Hk & _ & _ & _ & Hrun).
  - vm_compute. lia.
  - reflexivity.
  - reflexivity.
  - vm_compute. reflexivity.
  - split; [exact Hthrow|].
    exists w, e. intros fuel Hfuel. apply Hrun.
    change (batchSize (tcfg 2)) with 2 in Hk. lia.
Defined.

(** C6 on twelve pages and a width of four, at the fifth batch: the
    references are the last four of the eight completed pages. *)
Lemma reference_window_witness :
  let st := {| completedIndices := seq 0 8; currentIndex := 8;
               batchNumber := 5 |} in
  fst <$> loopHead (pages 12) (cfg 4) resolver backwards 4 = Some st ∧
  refIndices (cfg 4) st = [4; 5; 6; 7] ∧
  length (refIndices (cfg 4) st) = 4 `min` length (completedIndices st) ∧
  (∀ i r, i ∈ completedIndices st → i ∉ refIndices (cfg 4) st →
          r ∈ refIndices (cfg 4) st → i < r) ∧
  NoDup (refIndices (cfg 4) st).
Proof.
  intros st.
  assert (fst <$> loopHead (pages 12) (cfg 4) resolver backwards 4 = Some st)
    as Hstate by (vm_compute; reflexivity).
  split_and!; [exact Hstate|reflexivity|..];
    apply (reached _ _ _ Hstate); intros w Hhead;
    destruct (reference_window (pages 12) (cfg 4) resolver backwards 4 st w
                Hhead) as (Hlength & _ & Hlargest & _ & _ & Hdistinct);
    [exact Hlength|exact Hlargest|exact Hdistinct].
Defined.

(** C7: two pages translated one at a time, the first of which is answered
    with an empty result.  The run is rejected after its first batch, and
    the announced batches never cover page [1]. *)
Lemma translation_abort_counterexample :
  (processTranslation (book ["blank"; "page1"]) (tcfg 1) backwards 5).2
    = Failed "No image result for page 1" ∧
  ¬ ∃ fuel,
      concat (batches (processTranslation (book ["blank"; "page1"]) (tcfg 1)
                         backwards fuel).1) = seq 0 2.
Proof.
  split; [vm_compute; reflexivity|].
  intros [[|fuel] Hcover]; vm_compute in Hcover; discriminate.
Qed.

(** C7, as amended, on three pages that the studio colours and translates:
    both runs resolve and their batches cover the three pages. *)
Lemma batches_tile_the_pages_witness :
  (processColorization (book ["a"; "b"; "c"]) (cfg 2) resolver backwards 3).2
    = Resolved ∧
  (processTranslation (book ["a"; "b"; "c"]) (tcfg 2) backwards 3).2
    = Resolved ∧
  tiles 0 (batches (processColorization (book ["a"; "b"; "c"]) (cfg 2)
                      resolver backwards 3).1.1).
Proof.
  destruct (batches_tile_the_pages (book ["a"; "b"; "c"]) (cfg 2) (tcfg 2)
              resolver backwards 3)
    as ((Htiles & _) & _ & Hchained & Hflat).
  split_and!.
  - apply Hchained.
    + vm_compute. lia.
    + vm_compute. lia.
    + intros _. vm_compute. eauto.
    + intros batchNo references i Hi.
      destruct i as [|[|[|i]]]; [| | |vm_compute in Hi; lia];
        eexists; apply studio_colors; (reflexivity || discriminate).
  - apply Hflat.
    + vm_compute. lia.
    + vm_compute. lia.
    + intros i Hi.
      destruct i as [|[|[|i]]]; [| | |vm_compute in Hi; lia];
        eexists; vm_compute; reflexivity.
  - exact Htiles.
Defined.

(** C8 on twelve pages and a width of four, with the later pages of each
    batch settling first: after four batches the registry is [0] to [7] in
    page order. *)
Lemma registry_invariant_witness :
  let st := {| completedIndices := seq 0 8; currentIndex := 8;
               batchNumber := 5 |} in
  fst <$> loopHead (pages 12) (cfg 4) resolver backwards 4 = Some st ∧
  NoDup (completedIndices st) ∧ StronglySorted lt (completedIndices st).
Proof.
  intros st.
  assert (fst <$> loopHead (pages 12) (cfg 4) resolver backwards 4 = Some st)
    as Hstate by (vm_compute; reflexivity).
  split; [exact Hstate|].
  apply (reached _ _ _ Hstate). intros w Hhead.
  destruct (registry_invariant (pages 12) (cfg 4) resolver backwards 4 st w
              Hhead) as (Hnodup & Hsorted & _).
  split; [exact Hnodup|exact Hsorted].
Defined.

(** C10 on the same run, at the fifth batch: its references [4] to [7] are
    below its pages [8] to [11]. *)
Lemma references_precede_batch_witness :
  let st := {| completedIndices := seq 0 8; currentIndex := 8;
               batchNumber := 5 |} in
  fst <$> loopHead (pages 12) (cfg 4) resolver backwards 4 = Some st ∧
  refIndices (cfg 4) st = [4; 5; 6; 7] ∧
  batchIndices (pages 12) (cfg 4) st = [8; 9; 10; 11] ∧
  ∀ r p, r ∈ refIndices (cfg 4) st →
         p ∈ batchIndices (pages 12) (cfg 4) st → r < p.
Proof.
  intros st.
  assert (fst <$> loopHead (pages 12) (cfg 4) resolver backwards 4 = Some st)
    as Hstate by (vm_compute; reflexivity).
  split_and!; [exact Hstate|reflexivity|reflexivity|].
  apply (reached _ _ _ Hstate). intros w Hhead r p Hr Hp.
  by destruct (references_precede_batch (pages 12) (cfg 4) resolver backwards
                 4 st w Hhead r p Hr Hp).
Defined.

(** * The further properties in the studio *)

(** In the second copy the pages of scenario A are reported complete in page
    order although the later pages of each batch settle first. *)
Example earlier_scenario_A :
  let run :=
    Earlier.processColorization (pages 12) (cfg 4) resolver backwards 12 in
  run.2 = Resolved ∧
  batches run.1.1 = [[0]; [1]; [2; 3]; [4; 5; 6; 7]; [8; 9; 10; 11]] ∧
  index <$> completions run.1.1 = seq 0 12.
Proof. vm_compute. done. Qed.

(** X1 on a corrupt third page whose second reference cannot be resolved:
    the error is that of the resolver, which is awaited first. *)
Lemma undecodable_page_sends_nothing_witness :
  let getProcessedImageBase64 : Resolver :=
    λ i, if decide (i = 1) then Rejected "reference not available"
         else resolver i in
  outcome (pageRequest (book ["page0"; "page1"; "corrupt"]) (cfg 4)
             getProcessedImageBase64 3 [0; 1] 2)
    = Rejected "reference not available" ∧
  sent (pageRequest (book ["page0"; "page1"; "corrupt"]) (cfg 4)
          getProcessedImageBase64 3 [0; 1] 2)
    = [].
Proof.
  intros getProcessedImageBase64.
  destruct (undecodable_page_sends_nothing
              (book ["page0"; "page1"; "corrupt"]) (cfg 4)
              getProcessedImageBase64 3 [0; 1] 2 "corrupt"
              "reference not available")
    as (Hout & Hsent & _).
  - reflexivity.
  - left. reflexivity.
  - split; [exact Hout|exact Hsent].
Defined.

(** X2 on a page with three references, of which the second has no data:
    two references are attached and the request has seven parts. *)
Lemma request_parts_witness :
  ∃ req,
    sent (pageRequest (pages 4) (cfg 4)
            (λ i, if decide (i = 1) then Fulfilled None else resolver i) 4 [0; 1; 2] 3)
      = [req] ∧
    length (req_contents req) = 7.
Proof.
  eexists. split; [vm_compute; reflexivity|].
  match goal with
  | |- length (req_contents ?req) = _ =>
      destruct (request_parts (pages 4) (cfg 4)
                  (λ i, if decide (i = 1) then Fulfilled None else resolver i)
                  4 [0; 1; 2] 3 req) as (Hlength & _)
  end.
  - vm_compute. left.
  - rewrite Hlength. vm_compute. reflexivity.
Defined.

(** X4 at the fifth batch of scenario A. *)
Lemma batch_ramp_witness :
  let st := {| completedIndices := seq 0 8; currentIndex := 8;
               batchNumber := 5 |} in
  fst <$> loopHead (pages 12) (cfg 4) resolver backwards 4 = Some st ∧
  length (batchIndices (pages 12) (cfg 4) st) ≤ 5 ∧
  length (batchIndices (pages 12) (cfg 4) st) ≤ length (refIndices (cfg 4) st).
Proof.
  intros st.
  assert (fst <$> loopHead (pages 12) (cfg 4) resolver backwards 4 = Some st)
    as Hstate by (vm_compute; reflexivity).
  split; [exact Hstate|].
  apply (reached _ _ _ Hstate). intros w Hhead.
  destruct (batch_ramp (pages 12) (cfg 4) resolver backwards 4 st w Hhead)
    as (Hramp & _ & Hrefs & _).
  split; [exact Hramp|]. apply Hrefs. lia.
Defined.

(** X8 on three pages. *)
Lemma zero_width_never_resolves_witness :
  (processColorization (pages 3) (cfg 0) resolver backwards 7).2 ≠ Resolved ∧
  currentIndex
    (processColorization (pages 3) (cfg 0) resolver backwards 7).1.2 ≤ 1.
Proof.
  destruct (zero_width_never_resolves (pages 3) (cfg 0) resolver backwards 7)
    as (Hnever & Hcursor & _).
  - reflexivity.
  - vm_compute. lia.
  - split; [exact Hnever|exact Hcursor].
Defined.

(** X9 on two files. *)
Lemma zero_width_translation_spins_witness :
  processTranslation (pages 2) (tcfg 0) backwards 3 =
  ({| notifications := replicate 3 (PageProcessing []); apiCalls := [] |},
   Running).
Proof.
  apply (zero_width_translation_spins (pages 2) (tcfg 0) backwards 3).
  - reflexivity.
  - vm_compute. lia.
Defined.

(** X10 on one page, with a batch size of [0]. *)
Lemma single_page_run_witness :
  (processColorization (pages 1) (cfg 0) resolver backwards 2).2 = Resolved ∧
  completedIndices
    (processColorization (pages 1) (cfg 0) resolver backwards 2).1.2 = [0].
Proof.
  destruct (single_page_run (pages 1) (cfg 0) resolver backwards 2)
    as (Hresult & _ & Hregistry).
  - reflexivity.
  - lia.
  - split.
    + rewrite Hresult. vm_compute. reflexivity.
    + rewrite Hregistry. vm_compute. reflexivity.
Defined.

(** X12 on three files translated two at a time. *)
Lemma all_pages_translated_witness :
  (processTranslation (book ["a"; "b"; "c"]) (tcfg 2) backwards 3).2
    = Resolved ∧
  length (apiCalls
            (processTranslation (book ["a"; "b"; "c"]) (tcfg 2) backwards 3).1)
    = 3.
Proof.
  destruct (all_pages_translated (book ["a"; "b"; "c"]) (tcfg 2) backwards 3)
    as (Hresolved & _ & _ & Hcalls & _).
  - vm_compute. lia.
  - vm_compute. lia.
  - intros i Hi.
    destruct i as [|[|[|i]]]; [| | |vm_compute in Hi; lia];
      eexists; vm_compute; reflexivity.
  - split; [exact Hresolved|exact Hcalls].
Defined.

(** X13 on scenario C: ten pages, three at a time, in four batches. *)
Lemma translation_batches_are_chunks_witness :
  batches (processTranslation (pages 10) (tcfg 3) backwards 10).1
  = [[0; 1; 2]; [3; 4; 5]; [6; 7; 8]; [9]].
Proof.
  rewrite (translation_batches_are_chunks (pages 10) (tcfg 3) backwards 10).
  - vm_compute. reflexivity.
  - vm_compute. lia.
  - vm_compute. reflexivity.
Defined.

(** X14 on three files translated together, the second being blank: the
    run fails and the other two pages have been reported complete. *)
Lemma translation_failure_keeps_completions_witness :
  (processTranslation (book ["page0"; "blank"; "page2"]) (tcfg 3)
     backwards 1).2 = Failed "No image result for page 2" ∧
  ∃ start,
    firstRejection
      ((λ i, outcome (translateTask (book ["page0"; "blank"; "page2"])
                        (tcfg 3) i))
         <$> settleOrder backwards
               (translateBatch (book ["page0"; "blank"; "page2"]) (tcfg 3)
                  start))
    = Some "No image result for page 2".
Proof.
  assert ((processTranslation (book ["page0"; "blank"; "page2"]) (tcfg 3)
             backwards 1).2 = Failed "No image result for page 2") as Hfailed
    by (vm_compute; reflexivity).
  split; [exact Hfailed|].
  destruct (translation_failure_keeps_completions
              (book ["page0"; "blank"; "page2"]) (tcfg 3) backwards 1
              (processTranslation (book ["page0"; "blank"; "page2"]) (tcfg 3)
                 backwards 1).1
              "No image result for page 2")
    as (start & _ & _ & Hfirst & _).
  - rewrite <- Hfailed. apply surjective_pairing.
  - by exists start.
Defined.


(** X16 on the first pass over three pages, and on a first page that
    faults. *)
Lemma earlier_pass_reports_after_the_batch_witness :
  (Earlier.iteration (pages 3) (cfg 4) resolver backwards initial idle).2
    = Fulfilled {| completedIndices := [0]; currentIndex := 1;
                   batchNumber := 2 |} ∧
  ∃ e,
    Earlier.iteration (book ["fault"; "page1"]) (cfg 4) resolver backwards
      initial idle
    = ({| notifications := notifications idle ++ [PageProcessing [0]];
          apiCalls :=
            apiCalls idle ++
            ([0] ≫= λ i, sent (Earlier.pageRequest (book ["fault"; "page1"])
                                (cfg 4) resolver 1 [] i)) |},
       Rejected e).
Proof.
  split.
  - destruct (earlier_pass_reports_after_the_batch (pages 3) (cfg 4) resolver
                backwards initial idle) as [Hreturns _].
    rewrite Hreturns.
    + vm_compute. reflexivity.
    + intros i Hi. vm_compute in Hi.
      apply list_elem_of_singleton in Hi as ->.
      eexists. vm_compute. reflexivity.
  - destruct (earlier_pass_reports_after_the_batch (book ["fault"; "page1"])
                (cfg 4) resolver backwards initial idle) as [_ Hrejected].
    destruct (Hrejected 0 "503 service unavailable") as (e & _ & Hpass).
    + vm_compute. left.
    + vm_compute. reflexivity.
    + exists e. exact Hpass.
Defined.

(** X18 on three pages that the studio colours. *)
Lemma colorization_resolves_iff_witness :
  ∃ fuel,
    (processColorization (book ["a"; "b"; "c"]) (cfg 2) resolver backwards
       fuel).2 = Resolved.
Proof.
  apply (colorization_resolves_iff (book ["a"; "b"; "c"]) (cfg 2) resolver
           backwards).
  - vm_compute. lia.
  - intros batchNo references i Hi.
    destruct i as [|[|[|i]]]; [| | |vm_compute in Hi; lia];
      eexists; apply studio_colors; (reflexivity || discriminate).
  - right. vm_compute. eauto.
Defined.

(** X19 on three files that the studio translates. *)
Lemma translation_resolves_iff_witness :
  ∃ fuel,
    (processTranslation (book ["a"; "b"; "c"]) (tcfg 2) backwards fuel).2
    = Resolved.
Proof.
  apply (translation_resolves_iff (book ["a"; "b"; "c"]) (tcfg 2) backwards).
  - vm_compute. lia.
  - intros i Hi.
    destruct i as [|[|[|i]]]; [| | |vm_compute in Hi; lia];
      eexists; vm_compute; reflexivity.
Defined.

(** X20 at the third batch of three pages coloured one at a time. *)
Lemma references_before_cursor_witness :
  let st := {| completedIndices := [0; 1]; currentIndex := 2;
               batchNumber := 3 |} in
  fst <$> loopHead (book ["a"; "b"; "c"]) (cfg 1) resolver backwards 2
    = Some st ∧
  refIndices (cfg 1) st = [1].
Proof.
  intros st.
  assert (fst <$> loopHead (book ["a"; "b"; "c"]) (cfg 1) resolver
                    backwards 2 = Some st)
    as Hstate by (vm_compute; reflexivity).
  split; [exact Hstate|].
  apply (reached _ _ _ Hstate). intros w Hhead.
  destruct (references_before_cursor (book ["a"; "b"; "c"]) (cfg 1) resolver
              backwards) with (n := 2) (st := st) (w := w) as (_ & ->).
  - intros batchNo references i Hi. unfold delivered.
    destruct i as [|[|[|i]]]; [| | |vm_compute in Hi; lia];
      (erewrite studio_colors; [eauto|reflexivity|discriminate..]).
  - exact Hhead.
  - reflexivity.
Defined.
